(** * go-quai: big-bits arithmetic, constant monitor and the chain indexes

  A shallow embedding of [common/big.go] and of the transaction-lookup and
  bloom-bits accessors of package [rawdb], with the properties of the
  specification stated over it.

  Conventions.  A [*big.Int] is its value in [Z]; a [uint64] is a [Z] kept
  in [0, 2^64); a [[]byte] is a [list byte]; a Go panic and a process exit
  through [log.Fatal] are explicit outcomes. *)

From Stdlib Require Import ZArith Lia String.
From Stdlib.Strings Require Import Byte.
From stdpp Require Import gmap list sorting.

Local Open Scope Z_scope.

(** ** Bytes *)

#[global] Instance byte_eq_dec : EqDecision byte := Byte.byte_eq_dec.

#[global] Instance byte_countable : Countable byte :=
  inj_countable' Byte.to_N (fun n => default x00 (Byte.of_N n))
    (fun b => f_equal (default x00) (Byte.of_to_N b)).

(** The numeric value of a byte, and the byte of the low eight bits of an
    integer (Go's [byte(v)] conversion). *)
Definition byte_to_Z (b : byte) : Z := Z.of_N (Byte.to_N b).

Definition byte_of_Z (v : Z) : byte :=
  default x00 (Byte.of_N (Z.to_N (v mod 256))).

Module bytes.

(** [bytes.Compare(a, b)]: lexicographic comparison, -1, 0 or +1. *)
Fixpoint Compare (a b : list byte) : Z :=
  match a, b with
  | [], [] => 0
  | [], _ :: _ => -1
  | _ :: _, [] => 1
  | x :: a', y :: b' =>
      match byte_to_Z x ?= byte_to_Z y with
      | Lt => -1
      | Gt => 1
      | Eq => Compare a' b'
      end
  end.

(** [bytes.HasPrefix(s, prefix)]. *)
Fixpoint HasPrefix (s prefix : list byte) : bool :=
  match prefix, s with
  | [], _ => true
  | _ :: _, [] => false
  | p :: prefix', x :: s' => bool_decide (p = x) && HasPrefix s' prefix'
  end.

End bytes.

Module binary.

(** [binary.BigEndian.PutUintN]: the [n] low-order bytes of [v], most
    significant first. *)
Fixpoint BigEndian (n : nat) (v : Z) : list byte :=
  match n with
  | O => []
  | S k => BigEndian k (v / 256) ++ [byte_of_Z v]
  end.

End binary.

(** ** math/big primitives used by the sources *)

Module big.

(** [z.SetBytes(buf)]: [buf] read as a big-endian unsigned integer. *)
Definition SetBytes (buf : list byte) : Z :=
  fold_left (fun acc b => acc * 256 + byte_to_Z b) buf 0.

(** The big-endian digits of [n], without leading zeros. *)
Fixpoint digits (fuel : nat) (n : Z) : list byte :=
  match fuel with
  | O => []
  | S k => if n =? 0 then [] else digits k (n / 256) ++ [byte_of_Z n]
  end.

(** [x.Bytes()]: the absolute value of [x] as a big-endian byte slice of
    minimal length; empty for [0]. *)
Definition Bytes (x : Z) : list byte :=
  digits (Z.to_nat (Z.log2 (Z.abs x)) + 1) (Z.abs x).

(** [z.SetUint64(x)]. *)
Definition SetUint64 (x : Z) : Z := x mod 2 ^ 64.

(** [x.Cmp(y)]: -1, 0 or +1. *)
Definition Cmp (x y : Z) : Z :=
  match x ?= y with
  | Lt => -1
  | Eq => 0
  | Gt => 1
  end.

(** [z.Div(x, y)]: Euclidean division; a zero divisor panics ([None]). *)
Definition Div (x y : Z) : option Z :=
  if y =? 0 then None else Some (Z.sgn y * (x / Z.abs y)).

(** [z.Exp(x, y, m)] for [m == nil] or [m == 0], the only moduli the sources
    pass: [x**y], and [1] when [y <= 0]. *)
Definition Exp (x y : Z) : Z :=
  if y <=? 0 then 1 else x ^ y.

(** [x.BitLen()]: the length of [|x|] in bits, [0] for [0]. *)
Definition BitLen (x : Z) : Z :=
  if x =? 0 then 0 else Z.log2 (Z.abs x) + 1.

(** [x.Sign()]. *)
Definition Sign (x : Z) : Z := Z.sgn x.

(** [x.Uint64()]: the low 64 bits of [|x|]. *)
Definition Uint64 (x : Z) : Z := Z.abs x mod 2 ^ 64.

End big.

(** ** mathutil.BinaryLog *)

Module mathutil.

(** The digit loop of the binary logarithm: [a / b] is the current value
    of [x] in [[1, 2)], [m] the mantissa bits produced so far.  Each round
    squares [x], shifts the mantissa, and when [x >= 2] halves [x] and sets
    the new low bit.  When [x] reaches [1] all remaining bits are zero. *)
Fixpoint mantissa_loop (bits : nat) (a b m : Z) : Z :=
  match bits with
  | O => m
  | S k =>
      if a =? b then m * 2 ^ Z.of_nat bits
      else
        let a2 := a * a in
        let b2 := b * b in
        if 2 * b2 <=? a2
        then mantissa_loop k a2 (2 * b2) (2 * m + 1)
        else mantissa_loop k a2 b2 (2 * m)
  end.

(** Modelled from the spec: [mathutil.BinaryLog] belongs to the external
    module modernc.org/mathutil, outside the files embedded here.
    The specification gives it as [c, m = binaryLog(x, mantissaBits)] with
    [c] the integer base-2 logarithm and [m] the fractional mantissa of
    [mantissaBits] bits, [x ≈ 2^(c + m / 2^mantissaBits)]; the library
    documents a panic for [n <= 0] and for [mantissaBits < 0]. *)
Definition BinaryLog (n mantissaBits : Z) : option (Z * Z) :=
  if (big.Sign n <=? 0) || (mantissaBits <? 0) then None
  else
    let characteristic := big.BitLen n - 1 in
    Some (characteristic,
          mantissa_loop (Z.to_nat mantissaBits) n (2 ^ characteristic) 0).

End mathutil.

(** ** common/big.go *)

Module common.

Definition MantBits : Z := 64.

Definition HashLength : nat := 32.

(** The package-level big integers.  They are pointers shared by the whole
    process, so every function that reads one takes the current value of
    the shared store as an argument. *)
Record Shared : Type := mkShared {
  Big0 : Z;
  Big1 : Z;
  Big2 : Z;
  Big3 : Z;
  Big8 : Z;
  Big32 : Z;
  Big256 : Z;
  Big257 : Z;
  Big2e256 : Z;
  Big2e64 : Z
}.

(** The values the package initialiser gives them. *)
Definition init : Shared :=
  {| Big0 := 0;
     Big1 := 1;
     Big2 := 2;
     Big3 := 3;
     Big8 := 8;
     Big32 := 32;
     Big256 := 256;
     Big257 := 257;
     Big2e256 := big.Exp 2 256;
     Big2e64 := big.Exp 2 64 |}.

Definition BigBitsToBits (g : Shared) (original : Z) : option Z :=
  big.Div original (Big2e64 g).

Definition BitsToBigBits (original : Z) : option Z :=
  match mathutil.BinaryLog original 64 with
  | None => None
  | Some (c, m) =>
      let bigBits := c * big.Exp 2 64 in
      let bigBits := bigBits + m in
      Some bigBits
  end.

Definition BigBitsArrayToBitsArray (g : Shared) (original : list Z)
  : option (list Z) :=
  mapM (fun bits => big.Div bits (Big2e64 g)) original.

Definition EntropyBigBitsToDifficultyBits (g : Shared) (bigBits : Z)
  : option Z :=
  match big.Div bigBits (Big2e64 g) with
  | None => None
  | Some e =>
      let twopowerBits := big.Exp 2 e in
      big.Div (Big2e256 g) twopowerBits
  end.

Definition LogBig (diff : Z) : option Z :=
  let diffCopy := diff in
  match mathutil.BinaryLog diffCopy MantBits with
  | None => None
  | Some (c, m) =>
      let bigBits := c * big.Exp 2 MantBits in
      let bigBits := bigBits + m in
      Some bigBits
  end.

(** *** SanityCheck

    The goroutine started by [SanityCheck] never returns: its body is a
    [for] without condition, [break] or [return].  It is modelled by the
    events it produces over a finite number of rounds; what the rest of
    the process does between two rounds is the input of each round. *)

(** The private copies taken before the goroutine starts. *)
Record Locals : Type := mkLocals {
  big0 : Z;
  big1 : Z;
  big2 : Z;
  big3 : Z;
  big8 : Z;
  big32 : Z;
  big256 : Z;
  big257 : Z;
  big2e256 : Z;
  big2e64 : Z
}.

Definition locals : Locals :=
  {| big0 := 0;
     big1 := 1;
     big2 := 2;
     big3 := 3;
     big8 := 8;
     big32 := 32;
     big256 := 256;
     big257 := 257;
     big2e256 := big.Exp 2 256;
     big2e64 := big.Exp 2 64 |}.

(** The condition of the [if]: the first eight copies are compared with the
    shared values, the last two with freshly computed powers. *)
Definition mutated (l : Locals) (g : Shared) : bool :=
  negb (big.Cmp (big0 l) (Big0 g) =? 0)
  || negb (big.Cmp (big1 l) (Big1 g) =? 0)
  || negb (big.Cmp (big2 l) (Big2 g) =? 0)
  || negb (big.Cmp (big3 l) (Big3 g) =? 0)
  || negb (big.Cmp (big8 l) (Big8 g) =? 0)
  || negb (big.Cmp (big32 l) (Big32 g) =? 0)
  || negb (big.Cmp (big256 l) (Big256 g) =? 0)
  || negb (big.Cmp (big257 l) (Big257 g) =? 0)
  || negb (big.Cmp (big2e256 l) (big.Exp 2 256) =? 0)
  || negb (big.Cmp (big2e64 l) (big.Exp 2 64) =? 0).

(** What the goroutine does that others can observe. *)
Inductive Event : Type :=
| Sleep                       (* time.Sleep(1 * time.Minute) returned *)
| LogError (msg : string)     (* log.Global.Error(msg) *)
| QuitSent                    (* quitCh <- struct{}{} completed *)
| QuitBlocked.                (* parked on the send for ever *)

(** One round of the loop as the goroutine finds the process: the shared
    values at the time of the comparison, and whether a send on [quitCh]
    is ever taken by a receiver. *)
Record Round : Type := mkRound {
  shared : Shared;
  received : bool
}.

Definition mutated_msg : string := "A common value has mutated, exiting now".

Fixpoint monitor (l : Locals) (rounds : list Round) : list Event :=
  match rounds with
  | [] => []
  | r :: rest =>
      Sleep ::
      (if mutated l (shared r)
       then LogError mutated_msg ::
            (if received r
             then QuitSent :: monitor l rest
             else [QuitBlocked])
       else monitor l rest)
  end.

Definition SanityCheck (rounds : list Round) : list Event :=
  monitor locals rounds.

(** Number of completed or attempted writes to the quit channel. *)
Definition is_quit (e : Event) : bool :=
  match e with
  | QuitSent | QuitBlocked => true
  | _ => false
  end.

Definition quit_writes (t : list Event) : nat :=
  length (filter (fun e => is_quit e = true) t).

(** Number of error entries the monitor has logged. *)
Definition is_log (e : Event) : bool :=
  match e with
  | LogError _ => true
  | _ => false
  end.

Definition error_logs (t : list Event) : nat :=
  length (filter (fun e => is_log e = true) t).

End common.


(** ** The key-value store and its logger *)

Module ethdb.

(** How the store may fail.  A [get], [put] or [delete] on a key fails with
    the error given for that key; an iterator fails with the given error
    instead of yielding its key number [n] (counted from zero), or at the
    end when it holds fewer keys. *)
Record Faults : Type := mkFaults {
  get_fault : list byte -> option string;
  put_fault : list byte -> option string;
  delete_fault : list byte -> option string;
  iter_fault : option (nat * string)
}.

Definition no_faults : Faults :=
  {| get_fault := fun _ => None;
     put_fault := fun _ => None;
     delete_fault := fun _ => None;
     iter_fault := None |}.

Inductive Level : Type := ErrorLevel | FatalLevel.

Inductive Field : Type :=
| FBytes (b : list byte)
| FUint (n : Z)
| FErr (e : string).

(** One call of the logger returned by [db.Logger()]. *)
Record Entry : Type := mkEntry {
  level : Level;
  fields : list (string * Field);
  message : string
}.

(** A database: its content, the faults it is going to show, and what has
    been logged through its logger so far, oldest entry first. *)
Record Database : Type := mkDatabase {
  data : gmap (list byte) (list byte);
  faults : Faults;
  logged : list Entry
}.

Definition errNotFound : string := "not found".

(** [db.Get(key)]: value and error. *)
Definition Get (db : Database) (key : list byte) : list byte * option string :=
  match get_fault (faults db) key with
  | Some e => ([], Some e)
  | None =>
      match data db !! key with
      | Some v => (v, None)
      | None => ([], Some errNotFound)
      end
  end.

(** [db.Put(key, value)]. *)
Definition Put (db : Database) (key value : list byte)
  : Database * option string :=
  match put_fault (faults db) key with
  | Some e => (db, Some e)
  | None =>
      ({| data := <[key := value]> (data db);
          faults := faults db;
          logged := logged db |}, None)
  end.

(** [db.Delete(key)]. *)
Definition Delete (db : Database) (key : list byte)
  : Database * option string :=
  match delete_fault (faults db) key with
  | Some e => (db, Some e)
  | None =>
      ({| data := delete key (data db);
          faults := faults db;
          logged := logged db |}, None)
  end.

(** The order of the keys of the store. *)
Definition key_le (a b : list byte) : Prop := bytes.Compare a b <= 0.

#[global] Instance key_le_dec (a b : list byte) : Decision (key_le a b) :=
  Z_le_dec (bytes.Compare a b) 0.

(** An iterator: the keys [Next] is still going to deliver, in order, and the
    error it meets after them, if any. *)
Record Iterator : Type := mkIterator {
  pending : list (list byte);
  failure : option string
}.

(** [db.NewIterator(prefix, start)]: the keys of the store that carry
    [prefix] and are not below [prefix ++ start], in ascending order, as they
    are when the iterator is created. *)
Definition NewIterator (db : Database) (prefix start : list byte) : Iterator :=
  let keys :=
    filter (fun k => bytes.HasPrefix k prefix = true
                     /\ 0 <= bytes.Compare k (prefix ++ start))
           (fst <$> map_to_list (data db)) in
  let sorted := merge_sort key_le keys in
  match iter_fault (faults db) with
  | None => {| pending := sorted; failure := None |}
  | Some (n, e) => {| pending := take n sorted; failure := Some e |}
  end.

(** The result of a call: it returns, or the process has exited
    ([log.Fatal] ends in [os.Exit(1)]). *)
Inductive Outcome (A : Type) : Type :=
| Returned (a : A)
| Exited.

Arguments Returned {A} a.
Arguments Exited {A}.

(** Calls on a database thread it through. *)
Definition M (A : Type) : Type := Database -> Outcome A * Database.

Definition ret {A : Type} (a : A) : M A := fun db => (Returned a, db).

Definition bind {A B : Type} (m : M A) (k : A -> M B) : M B :=
  fun db =>
    match m db with
    | (Returned a, db') => k a db'
    | (Exited, db') => (Exited, db')
    end.

Definition log_entry (e : Entry) (db : Database) : Database :=
  {| data := data db; faults := faults db; logged := logged db ++ [e] |}.

(** [db.Logger().WithFields(fs).Error(msg)]. *)
Definition Error (fs : list (string * Field)) (msg : string) : M unit :=
  fun db => (Returned tt, log_entry (mkEntry ErrorLevel fs msg) db).

(** [db.Logger().WithFields(fs).Fatal(msg)]: does not return. *)
Definition Fatal {A : Type} (fs : list (string * Field)) (msg : string) : M A :=
  fun db => (Exited, log_entry (mkEntry FatalLevel fs msg) db).

End ethdb.

Notation "x <- m ;; k" := (ethdb.bind m (fun x => k))
  (at level 100, m at next level, right associativity).
Notation "m ;;; k" := (ethdb.bind m (fun _ => k))
  (at level 100, right associativity).

(** ** Package rawdb: transaction lookup entries and bloom bits *)

Module rawdb.

Import ethdb.

Local Open Scope string_scope.
Local Open Scope list_scope.

(** A [common.Hash] is an array of [common.HashLength] bytes. *)
Abbreviation Hash := (list byte) (only parsing).

(** [common.Hash{}]. *)
Definition zeroHash : Hash := repeat x00 common.HashLength.

(** [common.BytesToHash(b)]: [b] right-aligned in a hash, cropped from the
    left when it is too long. *)
Definition BytesToHash (b : list byte) : Hash :=
  let b := drop (length b - common.HashLength)%nat b in
  repeat x00 (common.HashLength - length b)%nat ++ b.

(** Modelled from the spec: the legacy record is declared outside the files
    embedded here; the specification gives it as a structured record with
    the single field [blockIndex], an unsigned 64-bit integer. *)
Record LegacyTxLookupEntry : Type := mkLegacyTxLookupEntry {
  BlockIndex : Z
}.

(** What this file uses from the rest of the repository and from the
    protobuf library: the key prefixes of the schema, the transactions and
    work objects of package [types], the accessors of headers and bodies,
    and the legacy wire schema. *)
Class Collaborators : Type := mkCollaborators {
  (* the namespace prefixes of the two kinds of keys *)
  txLookupPrefix : list byte;
  bloomBitsPrefix : list byte;
  (* [types.Transaction] and [tx.Hash()] *)
  Transaction : Type;
  tx_Hash : Transaction -> Hash;
  (* [types.WorkObject] with [wo.Number(nodeCtx)] and
     [wo.Body().Transactions()], and the views of a work object *)
  WorkObject : Type;
  Number : WorkObject -> Z -> Z;
  Transactions : WorkObject -> list Transaction;
  WorkObjectView : Type;
  BlockObject : WorkObjectView;
  (* [proto.Unmarshal(data, new(ProtoLegacyTxLookupEntry))]: the error on the
     left, the decoded message on the right; then [entry.ProtoDecode] *)
  ProtoLegacyTxLookupEntry : Type;
  proto_Unmarshal : list byte -> string + ProtoLegacyTxLookupEntry;
  ProtoDecode : ProtoLegacyTxLookupEntry -> LegacyTxLookupEntry;
  (* [ReadHeaderNumber(db, hash)]: [None] is the nil pointer *)
  ReadHeaderNumber : Database -> Hash -> option Z;
  (* [ReadCanonicalHash(db, number)]: the zero hash when there is none *)
  ReadCanonicalHash : Database -> Z -> Hash;
  (* [ReadWorkObject(db, number, hash, woType)]: [None] is nil *)
  ReadWorkObject :
    Database -> Z -> Hash -> WorkObjectView -> option WorkObject
}.

Section Accessors.

Context `{C : Collaborators}.

(** Modelled from the spec: [txLookupKey] is defined in the schema of the
    package, outside the files embedded here: the namespace prefix followed
    by the hash. *)
Definition txLookupKey (hash : Hash) : list byte :=
  txLookupPrefix ++ hash.

(** Modelled from the spec: [bloomBitsKey] is defined in the schema of the
    package, outside the files embedded here: the namespace prefix, the bit
    index big-endian (two bytes), the section number big-endian (eight
    bytes) and the head hash. *)
Definition bloomBitsKey (bit section : Z) (head : Hash) : list byte :=
  bloomBitsPrefix ++ binary.BigEndian 2 bit ++ binary.BigEndian 8 section
    ++ head.

(** Modelled from the spec: the fixed length of a bloom-bits key. *)
Definition BloomBitsKeyLength : nat :=
  (length bloomBitsPrefix + 2 + 8 + common.HashLength)%nat.

(** [db.Get], [db.Put] and [db.Delete] as calls. *)
Definition get (key : list byte) : M (list byte * option string) :=
  fun db => (Returned (Get db key), db).

Definition put (key value : list byte) : M (option string) :=
  fun db => let '(db', err) := Put db key value in (Returned err, db').

Definition del (key : list byte) : M (option string) :=
  fun db => let '(db', err) := Delete db key in (Returned err, db').

Definition ReadTxLookupEntry (hash : Hash) : M (option Z) :=
  r <- get (txLookupKey hash) ;;
  let data := fst r in
  if (length data =? 0)%nat then ret None
  else if (length data <? common.HashLength)%nat then
    let number := big.Uint64 (big.SetBytes data) in
    ret (Some number)
  else if (length data =? common.HashLength)%nat then
    fun db => (Returned (ReadHeaderNumber db (BytesToHash data)), db)
  else
    match proto_Unmarshal data with
    | inl err =>
        Error [("hash", FBytes hash); ("blob", FBytes data); ("err", FErr err)]
              "Invalid transaction lookup entry protobuf" ;;;
        ret None
    | inr protoLegacyTxLookupEntry =>
        let entry := ProtoDecode protoLegacyTxLookupEntry in
        ret (Some (BlockIndex entry))
    end.

Definition writeTxLookupEntry (hash : Hash) (numberBytes : list byte)
  : M unit :=
  err <- put (txLookupKey hash) numberBytes ;;
  match err with
  | Some e => Fatal [("err", FErr e)] "Failed to store transaction lookup entry"
  | None => ret tt
  end.

(** [for _, x := range xs { body x }]. *)
Fixpoint for_range {A : Type} (xs : list A) (body : A -> M unit) : M unit :=
  match xs with
  | [] => ret tt
  | x :: rest => body x ;;; for_range rest body
  end.

Definition WriteTxLookupEntries (number : Z) (hashes : list Hash) : M unit :=
  let numberBytes := big.Bytes (big.SetUint64 number) in
  for_range hashes (fun hash => writeTxLookupEntry hash numberBytes).

Definition WriteTxLookupEntriesByBlock (wo : WorkObject) (nodeCtx : Z)
  : M unit :=
  let numberBytes := big.Bytes (Number wo nodeCtx) in
  for_range (Transactions wo)
    (fun tx => writeTxLookupEntry (tx_Hash tx) numberBytes).

Definition DeleteTxLookupEntry (hash : Hash) : M unit :=
  err <- del (txLookupKey hash) ;;
  match err with
  | Some e =>
      Fatal [("err", FErr e)] "Failed to delete transaction lookup entry"
  | None => ret tt
  end.

Definition DeleteTxLookupEntries (hashes : list Hash) : M unit :=
  for_range hashes DeleteTxLookupEntry.

(** [for txIndex, tx := range txs { if tx.Hash() == hash { return ... } }]:
    the first transaction with that hash and its index. *)
Fixpoint scan (txs : list Transaction) (hash : Hash) (txIndex : Z)
  : option (Transaction * Z) :=
  match txs with
  | [] => None
  | tx :: rest =>
      if decide (tx_Hash tx = hash) then Some (tx, txIndex)
      else scan rest hash (txIndex + 1)
  end.

(** The tuple every failure path returns. *)
Definition notFound : option Transaction * Hash * Z * Z :=
  (None, zeroHash, 0, 0).

Definition ReadTransaction (hash : Hash)
  : M (option Transaction * Hash * Z * Z) :=
  blockNumber <- ReadTxLookupEntry hash ;;
  match blockNumber with
  | None => ret notFound
  | Some number =>
      fun db =>
        let blockHash := ReadCanonicalHash db number in
        if decide (blockHash = zeroHash) then ret notFound db
        else
          match ReadWorkObject db number blockHash BlockObject with
          | None =>
              (Error [("number", FUint number); ("hash", FBytes blockHash)]
                     "Transaction referenced missing" ;;;
               ret notFound) db
          | Some wo =>
              match scan (Transactions wo) hash 0 with
              | Some (tx, txIndex) =>
                  ret (Some tx, blockHash, number, txIndex) db
              | None =>
                  (Error [("number", FUint number);
                          ("hash", FBytes blockHash);
                          ("txhash", FBytes hash)]
                         "Transaction not found" ;;;
                   ret notFound) db
              end
          end
  end.

Definition ReadBloomBits (bit section : Z) (head : Hash)
  : M (list byte * option string) :=
  get (bloomBitsKey bit section head).

Definition WriteBloomBits (bit section : Z) (head : Hash) (bits : list byte)
  : M unit :=
  err <- put (bloomBitsKey bit section head) bits ;;
  match err with
  | Some e => Fatal [("err", FErr e)] "Failed to store bloom bits"
  | None => ret tt
  end.

(** The loop of [DeleteBloombits] over the keys the iterator delivers.  The
    result tells whether the loop ended because [it.Next()] returned false
    (and not through [break]); the error of [db.Delete] is dropped, as in
    the source. *)
Fixpoint deleteLoop (keys : list (list byte)) (end_ : list byte)
  (db : Database) : Database * bool :=
  match keys with
  | [] => (db, true)
  | key :: rest =>
      if (0 <=? bytes.Compare key end_)%Z then (db, false)
      else if negb (length key =? BloomBitsKeyLength)%nat
      then deleteLoop rest end_ db
      else deleteLoop rest end_ (fst (Delete db key))
  end.

Definition DeleteBloombits (bit from to : Z) : M unit :=
  fun db =>
    let start := bloomBitsKey bit from zeroHash in
    let end_ := bloomBitsKey bit to zeroHash in
    let it := NewIterator db [] start in
    let '(db', exhausted) := deleteLoop (pending it) end_ db in
    let itError := if exhausted then failure it else None in
    match itError with
    | Some e => Fatal [("err", FErr e)] "Failed to delete bloom bits" db'
    | None => ret tt db'
    end.

(** *** Vocabulary of the properties *)

(** The content of the store after the lookup entries of a block have been
    written on a store that accepts every write. *)
Definition written (v : list byte) (m : gmap (list byte) (list byte))
  (hashes : list (list byte)) : gmap (list byte) (list byte) :=
  foldl (fun m h => <[txLookupKey h := v]> m) m hashes.

(** A key lies in the range scanned by [DeleteBloombits bit from to]. *)
Definition scanned (bit from to : Z) (key : list byte) : Prop :=
  (0 <= bytes.Compare key (bloomBitsKey bit from zeroHash))%Z
  /\ (bytes.Compare key (bloomBitsKey bit to zeroHash) < 0)%Z.

(** A key is removed by [DeleteBloombits bit from to]. *)
Definition removed (bit from to : Z) (key : list byte) : Prop :=
  scanned bit from to key /\ length key = BloomBitsKeyLength.

#[global] Instance removed_dec (bit from to : Z) (key : list byte)
  : Decision (removed bit from to key).
Proof. unfold removed, scanned. apply _. Defined.

(** The content of the store after the lookup entries of a list of hashes
    have been deleted on a store that accepts every delete. *)
Definition deleted (m : gmap (list byte) (list byte))
  (hashes : list (list byte)) : gmap (list byte) (list byte) :=
  foldl (fun m h => delete (txLookupKey h) m) m hashes.

(** The fatal entries of the write and delete paths. *)
Definition fatal (e msg : string) : Entry :=
  mkEntry FatalLevel [("err", FErr e)] msg.

End Accessors.

End rawdb.

(** ** Concrete instances used by the examples *)

Module Examples.

Import ethdb rawdb.

Local Open Scope string_scope.
Local Open Scope list_scope.

(** A shared store in which [Big1] has been overwritten. *)
Definition corrupted : common.Shared :=
  {| common.Big0 := 0;
     common.Big1 := 5;
     common.Big2 := 2;
     common.Big3 := 3;
     common.Big8 := 8;
     common.Big32 := 32;
     common.Big256 := 256;
     common.Big257 := 257;
     common.Big2e256 := big.Exp 2 256;
     common.Big2e64 := big.Exp 2 64 |}.

(** A shared store in which [Big2e64] has been overwritten. *)
Definition corrupted_power : common.Shared :=
  {| common.Big0 := 0;
     common.Big1 := 1;
     common.Big2 := 2;
     common.Big3 := 3;
     common.Big8 := 8;
     common.Big32 := 32;
     common.Big256 := 256;
     common.Big257 := 257;
     common.Big2e256 := big.Exp 2 256;
     common.Big2e64 := 0 |}.

Definition h1 : list byte := repeat x01 32.
Definition h2 : list byte := repeat x02 32.
Definition h7 : list byte := repeat x07 32.

(** A small chain: block 7 with canonical hash [h7] holds the transactions
    with hashes [h1] and [h2]; block 9 has the canonical hash [h2] but no
    stored body; header [h7] has number 7.  The legacy decoder accepts a
    record that starts with field 2 as a one-byte varint. *)
Definition chain : Collaborators :=
  {| txLookupPrefix := [x6c];
     bloomBitsPrefix := [x42];
     Transaction := Z * list byte;
     tx_Hash := snd;
     WorkObject := Z * list (Z * list byte);
     Number := fun wo _ => fst wo;
     Transactions := snd;
     WorkObjectView := unit;
     BlockObject := tt;
     ProtoLegacyTxLookupEntry := Z;
     proto_Unmarshal := fun data =>
       match data with
       | x10 :: v :: _ => inr (byte_to_Z v)
       | _ => inl "proto: cannot parse invalid wire-format data"
       end;
     ProtoDecode := mkLegacyTxLookupEntry;
     ReadHeaderNumber := fun _ h =>
       if decide (h = h7) then Some 7%Z else None;
     ReadCanonicalHash := fun _ n =>
       if (n =? 7)%Z then h7 else if (n =? 9)%Z then h2 else zeroHash;
     ReadWorkObject := fun _ n h _ =>
       if (n =? 7)%Z && bool_decide (h = h7)
       then Some (7%Z, [(100%Z, h1); (101%Z, h2)])
       else None |}.

Definition store_of (l : list (list byte * list byte)) (f : Faults)
  : Database :=
  {| data := list_to_map l; faults := f; logged := [] |}.

Definition empty_db : Database := store_of [] no_faults.

(** Bloom bits of bit 0 for the sections 1 to 5, and a key of another
    length that sorts between the sections 3 and 4. *)
Definition bloom_entries : list (list byte * list byte) :=
  [ (@bloomBitsKey chain 0 1 h1, [x01]);
    (@bloomBitsKey chain 0 2 h1, [x02]);
    (@bloomBitsKey chain 0 3 h1, [x03]);
    (@bloomBitsKey chain 0 3 h1 ++ [xff], [x09]);
    (@bloomBitsKey chain 0 4 h1, [x04]);
    (@bloomBitsKey chain 0 5 h1, [x05]) ].

Definition bloom_db : Database := store_of bloom_entries no_faults.

(** The same store on a disk that refuses every delete. *)
Definition failing_deletes : Faults :=
  {| get_fault := fun _ => None;
     put_fault := fun _ => None;
     delete_fault := fun _ => Some "disk failure";
     iter_fault := None |}.

Definition bloom_db_failing : Database :=
  store_of bloom_entries failing_deletes.

(** A store that refuses every write. *)
Definition failing_puts : Faults :=
  {| get_fault := fun _ => None;
     put_fault := fun _ => Some "disk failure";
     delete_fault := fun _ => None;
     iter_fault := None |}.

(** Lookup entries in the three formats, a malformed legacy record, and
    entries that point to blocks that are not there. *)
Definition lookup_db : Database :=
  store_of
    [ (@txLookupKey chain h1, [x07]);
      (@txLookupKey chain h2, h7);
      (@txLookupKey chain h7, x10 :: x07 :: repeat x00 40);
      (@txLookupKey chain (repeat x03 32), repeat xff 40);
      (@txLookupKey chain (repeat x04 32), [x08]);
      (@txLookupKey chain (repeat x05 32), [x09]);
      (@txLookupKey chain (repeat x06 32), [x07]) ]
    no_faults.

(** Stores that fail on one key only, and a store whose iterators fail
    after a number of keys. *)
Definition put_fails_at (key : list byte) : Faults :=
  {| get_fault := fun _ => None;
     put_fault := fun k => if decide (k = key) then Some "disk failure"
                           else None;
     delete_fault := fun _ => None;
     iter_fault := None |}.

Definition delete_fails_at (key : list byte) : Faults :=
  {| get_fault := fun _ => None;
     put_fault := fun _ => None;
     delete_fault := fun k => if decide (k = key) then Some "disk failure"
                              else None;
     iter_fault := None |}.

Definition iter_fails (n : nat) : Faults :=
  {| get_fault := fun _ => None;
     put_fault := fun _ => None;
     delete_fault := fun _ => None;
     iter_fault := Some (n, "iterator failure") |}.

(** A store whose reads fail. *)
Definition failing_gets : Faults :=
  {| get_fault := fun _ => Some "disk failure";
     put_fault := fun _ => None;
     delete_fault := fun _ => None;
     iter_fault := None |}.

(** A work object of block 7 in which the hash [h2] occurs twice, and the
    chain that stores it as the body of block 7. *)
Definition twice : list (Z * list byte) :=
  [(100%Z, h1); (101%Z, h2); (102%Z, h2)].

Definition chain_twice : Collaborators :=
  {| txLookupPrefix := [x6c];
     bloomBitsPrefix := [x42];
     Transaction := Z * list byte;
     tx_Hash := snd;
     WorkObject := Z * list (Z * list byte);
     Number := fun wo _ => fst wo;
     Transactions := snd;
     WorkObjectView := unit;
     BlockObject := tt;
     ProtoLegacyTxLookupEntry := Z;
     proto_Unmarshal := fun _ =>
       inl "proto: cannot parse invalid wire-format data";
     ProtoDecode := mkLegacyTxLookupEntry;
     ReadHeaderNumber := fun _ h =>
       if decide (h = h7) then Some 7%Z else None;
     ReadCanonicalHash := fun _ n => if (n =? 7)%Z then h7 else zeroHash;
     ReadWorkObject := fun _ n h _ =>
       if (n =? 7)%Z && bool_decide (h = h7) then Some (7%Z, twice)
       else None |}.

End Examples.

(** * Properties *)

(** ** Big-bits arithmetic *)

Module BigBitsFacts.

Lemma Exp_2_64 : big.Exp 2 64 = 2 ^ 64.
Proof. reflexivity. Qed.

Lemma Div_pos (x y : Z) : 0 < y -> big.Div x y = Some (x / y).
Proof.
  intros Hy. unfold big.Div.
  destruct (Z.eqb_spec y 0) as [->|_]; [lia|].
  rewrite Z.sgn_pos, Z.abs_eq by lia. f_equal. lia.
Qed.

Lemma BitLen_pos (x : Z) : 0 < x -> big.BitLen x = Z.log2 x + 1.
Proof.
  intros Hx. unfold big.BitLen.
  destruct (Z.eqb_spec x 0); [lia|]. by rewrite Z.abs_eq by lia.
Qed.

(** The mantissa loop emits exactly [bits] binary digits below the ones it
    was given. *)
Lemma mantissa_loop_range (bits : nat) :
  forall a b m,
    m * 2 ^ Z.of_nat bits <= mathutil.mantissa_loop bits a b m
      < (m + 1) * 2 ^ Z.of_nat bits.
Proof.
  induction bits as [|k IH]; intros a b m.
  - simpl. lia.
  - cbn [mathutil.mantissa_loop].
    assert (Hpow : 2 ^ Z.of_nat (S k) = 2 * 2 ^ Z.of_nat k).
    { rewrite Nat2Z.inj_succ, Z.pow_succ_r by lia. reflexivity. }
    assert (0 < 2 ^ Z.of_nat k) by (apply Z.pow_pos_nonneg; lia).
    destruct (a =? b).
    + rewrite Hpow. lia.
    + destruct (2 * (b * b) <=? a * a).
      * specialize (IH (a * a) (2 * (b * b)) (2 * m + 1)). rewrite Hpow. lia.
      * specialize (IH (a * a) (b * b) (2 * m)). rewrite Hpow. lia.
Qed.

(** What [BinaryLog] returns on a positive number: the position of the top
    bit and a mantissa of the requested width. *)
Lemma BinaryLog_pos (n k : Z) :
  0 < n -> 0 <= k ->
  exists m, mathutil.BinaryLog n k = Some (Z.log2 n, m) /\ 0 <= m < 2 ^ k.
Proof.
  intros Hn Hk. unfold mathutil.BinaryLog, big.Sign.
  rewrite Z.sgn_pos by lia.
  destruct (Z.ltb_spec k 0); [lia|]. cbn [Z.leb Z.compare orb].
  rewrite BitLen_pos by lia.
  replace (Z.log2 n + 1 - 1) with (Z.log2 n) by lia.
  eexists. split; [reflexivity|].
  pose proof (mantissa_loop_range (Z.to_nat k) n (2 ^ Z.log2 n) 0) as H1.
  rewrite Z2Nat.id in H1 by lia. lia.
Qed.

Lemma BinaryLog_nonpos (n k : Z) : n <= 0 -> mathutil.BinaryLog n k = None.
Proof.
  intros Hn. unfold mathutil.BinaryLog, big.Sign.
  destruct (Z.leb_spec (Z.sgn n) 0) as [_|H]; [reflexivity|].
  pose proof (Z.sgn_nonpos n). lia.
Qed.

(** C5.  For every integer [x >= 1], [BitsToBigBits x] is [c * 2^64 + m]
    with [c, m] the result of the binary logarithm and [0 <= m < 2^64], and
    [BigBitsToBits] (with the shared [Big2e64] at its initial value) takes it
    back to [c], which is [floor (log2 x)]: [2^c <= x < 2^(c+1)]. *)
Theorem BigBitsToBits_BitsToBigBits (x : Z) :
  1 <= x ->
  exists c m,
    mathutil.BinaryLog x 64 = Some (c, m)
    /\ 0 <= c /\ 0 <= m < 2 ^ 64
    /\ common.BitsToBigBits x = Some (c * 2 ^ 64 + m)
    /\ common.BigBitsToBits common.init (c * 2 ^ 64 + m) = Some c
    /\ 2 ^ c <= x < 2 ^ (c + 1).
Proof.
  intros Hx.
  destruct (BinaryLog_pos x 64) as (m & Hlog & Hm); [lia..|].
  exists (Z.log2 x), m.
  split; [exact Hlog|].
  split; [apply Z.log2_nonneg|].
  split; [exact Hm|].
  split.
  { unfold common.BitsToBigBits. rewrite Hlog, Exp_2_64. reflexivity. }
  split.
  { unfold common.BigBitsToBits. cbn [common.Big2e64 common.init].
    rewrite Exp_2_64, Div_pos by lia. f_equal.
    rewrite Z.div_add_l by lia. rewrite Z.div_small by lia. lia. }
  pose proof (Z.log2_spec x) as Hspec.
  replace (Z.log2 x + 1) with (Z.succ (Z.log2 x)) by lia. apply Hspec. lia.
Qed.

Lemma BigBitsToBits_BitsToBigBits_witness :
  1 <= 256
  /\ exists c m,
       mathutil.BinaryLog 256 64 = Some (c, m)
       /\ 0 <= c /\ 0 <= m < 2 ^ 64
       /\ common.BitsToBigBits 256 = Some (c * 2 ^ 64 + m)
       /\ common.BigBitsToBits common.init (c * 2 ^ 64 + m) = Some c
       /\ 2 ^ c <= 256 < 2 ^ (c + 1).
Proof.
  split; [lia | apply (BigBitsToBits_BitsToBigBits 256); lia].
Defined.

(** C6.  [EntropyBigBitsToDifficultyBits] applied to [BitsToBigBits 256]
    is exactly [2^248]: the logarithm of 256 is 8 with mantissa 0, the
    exponent 8 is recovered by the division by [2^64], and
    [2^256 / 2^8 = 2^248]. *)
Theorem Entropy_of_BitsToBigBits_256 :
  mathutil.BinaryLog 256 64 = Some (8, 0)
  /\ common.BitsToBigBits 256 = Some (8 * 2 ^ 64)
  /\ big.Div (8 * 2 ^ 64) (common.Big2e64 common.init) = Some 8
  /\ common.EntropyBigBitsToDifficultyBits common.init (8 * 2 ^ 64)
     = Some (2 ^ 248).
Proof. repeat split; vm_compute; reflexivity. Qed.

(** C9.  [LogBig] computes the same transform as [BitsToBigBits]: on every
    input both give the same result, and on a positive input this is
    [c * 2^64 + m] for the [c, m] of the binary logarithm with 64 mantissa
    bits. *)
Theorem LogBig_eq_BitsToBigBits (x : Z) :
  common.LogBig x = common.BitsToBigBits x
  /\ (0 < x ->
      exists c m,
        mathutil.BinaryLog x 64 = Some (c, m)
        /\ 0 <= m < 2 ^ 64
        /\ common.LogBig x = Some (c * 2 ^ 64 + m)
        /\ common.BitsToBigBits x = Some (c * 2 ^ 64 + m)).
Proof.
  split; [reflexivity|]. intros Hx.
  destruct (BinaryLog_pos x 64) as (m & Hlog & Hm); [lia..|].
  exists (Z.log2 x), m. split; [exact Hlog|]. split; [exact Hm|].
  unfold common.LogBig, common.BitsToBigBits, common.MantBits.
  rewrite Hlog, Exp_2_64. split; reflexivity.
Qed.

Lemma LogBig_eq_BitsToBigBits_witness :
  common.LogBig 1024 = common.BitsToBigBits 1024
  /\ 0 < 1024
  /\ exists c m,
       mathutil.BinaryLog 1024 64 = Some (c, m)
       /\ 0 <= m < 2 ^ 64
       /\ common.LogBig 1024 = Some (c * 2 ^ 64 + m)
       /\ common.BitsToBigBits 1024 = Some (c * 2 ^ 64 + m).
Proof.
  split; [apply (LogBig_eq_BitsToBigBits 1024)|].
  split; [lia | apply (LogBig_eq_BitsToBigBits 1024); lia].
Defined.

End BigBitsFacts.

(** ** The constant monitor *)

Module MonitorFacts.

Import common.

Lemma Cmp_zero (a b : Z) : (big.Cmp a b =? 0) = (b =? a).
Proof.
  unfold big.Cmp. destruct (Z.compare_spec a b), (Z.eqb_spec b a);
    try reflexivity; lia.
Qed.

(** The comparison of a round only looks at the first eight shared values:
    the copies of [2^256] and [2^64] are compared with fresh powers. *)
Lemma mutated_locals (g : Shared) :
  mutated locals g =
    negb (Big0 g =? 0) || negb (Big1 g =? 1) || negb (Big2 g =? 2)
    || negb (Big3 g =? 3) || negb (Big8 g =? 8) || negb (Big32 g =? 32)
    || negb (Big256 g =? 256) || negb (Big257 g =? 257).
Proof.
  unfold mutated. rewrite !Cmp_zero.
  replace (big.Exp 2 256 =? big2e256 locals) with true by reflexivity.
  replace (big.Exp 2 64 =? big2e64 locals) with true by reflexivity.
  cbn [negb]. rewrite !orb_false_r. reflexivity.
Qed.

Lemma mutated_init : mutated locals init = false.
Proof. reflexivity. Qed.

(** C10.  As long as every shared constant has its canonical value in every
    round, the monitor logs nothing and never writes to the quit channel:
    its trace is one [Sleep] per round. *)
Theorem SanityCheck_no_false_abort (rounds : list Round) :
  Forall (fun r => shared r = init) rounds ->
  SanityCheck rounds = map (fun _ => Sleep) rounds
  /\ quit_writes (SanityCheck rounds) = 0%nat.
Proof.
  unfold SanityCheck.
  induction 1 as [|r rest Hr _ [IH1 IH2]]; [split; reflexivity|].
  cbn [monitor map]. rewrite Hr, mutated_init, IH1. split; [reflexivity|].
  rewrite <- IH1. exact IH2.
Qed.

Lemma SanityCheck_no_false_abort_witness :
  Forall (fun r => shared r = init) [mkRound init true; mkRound init false]
  /\ SanityCheck [mkRound init true; mkRound init false] = [Sleep; Sleep]
  /\ quit_writes (SanityCheck [mkRound init true; mkRound init false]) = 0%nat.
Proof.
  assert (H : Forall (fun r => shared r = init)
                [mkRound init true; mkRound init false]).
  { repeat constructor. }
  split; [exact H|].
  exact (SanityCheck_no_false_abort _ H).
Defined.

(** A round that finds a mutated value and whose send is taken logs once,
    writes once and goes on with the next round. *)
Lemma monitor_mutated_round (r : Round) (rest : list Round) :
  mutated locals (shared r) = true ->
  received r = true ->
  SanityCheck (r :: rest)
  = Sleep :: LogError mutated_msg :: QuitSent :: SanityCheck rest.
Proof. intros Hm Hr. unfold SanityCheck. cbn [monitor]. by rewrite Hm, Hr. Qed.

(** C4, as the code has it.  The loop has no exit: when the sends on the
    quit channel are taken, every round that finds a mutated value sleeps,
    logs the one error entry, then writes once to the quit channel, and the
    loop goes on with the next round; a round that finds none only sleeps.
    So the trace is the rounds' events one after the other, and both the
    number of error entries and the number of writes are the number of
    rounds that find a mutated value. *)
Theorem SanityCheck_writes_every_mutated_round (rounds : list Round) :
  Forall (fun r => received r = true) rounds ->
  SanityCheck rounds
  = concat (map (fun r => if mutated locals (shared r)
                          then [Sleep; LogError mutated_msg; QuitSent]
                          else [Sleep])
                rounds)
  /\ error_logs (SanityCheck rounds)
     = length (filter (fun r => mutated locals (shared r) = true) rounds)
  /\ quit_writes (SanityCheck rounds)
     = length (filter (fun r => mutated locals (shared r) = true) rounds).
Proof.
  unfold SanityCheck, quit_writes, error_logs.
  induction 1 as [|r rest Hr _ (IHt & IHl & IHq)]; [by repeat split|].
  cbn [monitor map concat]. rewrite Hr, <- IHt.
  rewrite (filter_cons _ r).
  destruct (mutated locals (shared r)) eqn:Hm;
    (split; [reflexivity|]);
    rewrite !filter_cons; repeat case_decide;
    cbn [is_quit is_log] in *; try congruence; cbn [length];
    by rewrite IHl, IHq.
Qed.

Lemma SanityCheck_writes_every_mutated_round_witness :
  Forall (fun r => received r = true)
    [mkRound Examples.corrupted true; mkRound init true;
     mkRound Examples.corrupted true]
  /\ SanityCheck [mkRound Examples.corrupted true; mkRound init true;
                  mkRound Examples.corrupted true]
     = [Sleep; LogError mutated_msg; QuitSent;
        Sleep;
        Sleep; LogError mutated_msg; QuitSent]
  /\ error_logs (SanityCheck [mkRound Examples.corrupted true;
                              mkRound init true;
                              mkRound Examples.corrupted true]) = 2%nat
  /\ quit_writes (SanityCheck [mkRound Examples.corrupted true;
                               mkRound init true;
                               mkRound Examples.corrupted true]) = 2%nat.
Proof.
  assert (H : Forall (fun r => received r = true)
                [mkRound Examples.corrupted true; mkRound init true;
                 mkRound Examples.corrupted true]).
  { repeat constructor. }
  split; [exact H|].
  destruct (SanityCheck_writes_every_mutated_round _ H) as (Ht & Hl & Hq).
  split; [rewrite Ht; reflexivity|].
  split; [rewrite Hl; reflexivity | rewrite Hq; reflexivity].
Defined.

(** C4, as the specification has it, fails: were the monitor to write
    exactly once and stop, every run that meets a mutated value would hold
    one write; two rounds with [Big1] overwritten give two. *)
Lemma SanityCheck_writes_twice :
  ~ (forall rounds : list Round,
       Exists (fun r => mutated locals (shared r) = true) rounds ->
       quit_writes (SanityCheck rounds) = 1%nat).
Proof.
  intros H.
  specialize (H [mkRound Examples.corrupted true;
                 mkRound Examples.corrupted true]).
  assert (Hex : Exists (fun r => mutated locals (shared r) = true)
                  [mkRound Examples.corrupted true;
                   mkRound Examples.corrupted true]).
  { constructor. reflexivity. }
  specialize (H Hex). vm_compute in H. discriminate.
Qed.

(** The shared [Big2e64] is never looked at: overwriting it goes unnoticed,
    while [BigBitsToBits] then divides by zero. *)
Example SanityCheck_blind_to_Big2e64 :
  SanityCheck [mkRound Examples.corrupted_power true] = [Sleep]
  /\ BigBitsToBits Examples.corrupted_power (8 * 2 ^ 64) = None.
Proof. split; reflexivity. Qed.

End MonitorFacts.

(** ** Bytes and big-endian integers *)

Module BytesFacts.

Lemma byte_to_Z_range (b : byte) : 0 <= byte_to_Z b < 256.
Proof.
  unfold byte_to_Z. pose proof (Byte.to_N_bounded b). lia.
Qed.

Lemma byte_to_of_Z (v : Z) : byte_to_Z (byte_of_Z v) = v mod 256.
Proof.
  unfold byte_to_Z, byte_of_Z.
  pose proof (Z.mod_pos_bound v 256 ltac:(lia)) as Hv.
  pose proof (Byte.to_of_N_option_map (Z.to_N (v mod 256))) as Hmap.
  destruct (N.leb_spec (Z.to_N (v mod 256)) 255) as [_|Hgt]; [|lia].
  destruct (Byte.of_N (Z.to_N (v mod 256))) as [b|]; [|discriminate].
  cbn in Hmap. injection Hmap as Hb.
  change (default x00 (Some b)) with b. rewrite Hb. lia.
Qed.

Lemma byte_of_to_Z (b : byte) : byte_of_Z (byte_to_Z b) = b.
Proof.
  unfold byte_of_Z. pose proof (byte_to_Z_range b).
  rewrite Z.mod_small by lia. unfold byte_to_Z.
  by rewrite N2Z.id, Byte.of_to_N.
Qed.

Lemma byte_to_Z_inj (a b : byte) : byte_to_Z a = byte_to_Z b -> a = b.
Proof.
  intros H. rewrite <- (byte_of_to_Z a), <- (byte_of_to_Z b). by rewrite H.
Qed.

Lemma SetBytes_snoc (l : list byte) (b : byte) :
  big.SetBytes (l ++ [b]) = big.SetBytes l * 256 + byte_to_Z b.
Proof. unfold big.SetBytes. by rewrite fold_left_app. Qed.

Lemma SetBytes_range (l : list byte) :
  0 <= big.SetBytes l < 256 ^ Z.of_nat (length l).
Proof.
  induction l as [|b l IH] using rev_ind.
  - cbn. lia.
  - rewrite SetBytes_snoc, length_app, Nat2Z.inj_add. cbn [length].
    rewrite Z.pow_add_r by lia. pose proof (byte_to_Z_range b).
    change (256 ^ Z.of_nat 1) with 256. lia.
Qed.

(** Reading back the minimal big-endian digits of [n]. *)
Lemma SetBytes_digits (fuel : nat) :
  forall n, 0 <= n < 2 ^ Z.of_nat fuel -> big.SetBytes (big.digits fuel n) = n.
Proof.
  induction fuel as [|k IH]; intros n Hn.
  - cbn in *. lia.
  - cbn [big.digits]. destruct (Z.eqb_spec n 0) as [->|Hne]; [reflexivity|].
    rewrite SetBytes_snoc, byte_to_of_Z, IH.
    + pose proof (Z.div_mod n 256). lia.
    + rewrite Nat2Z.inj_succ, Z.pow_succ_r in Hn by lia.
      split; [apply Z.div_pos; lia|].
      apply Z.div_lt_upper_bound; lia.
Qed.

Lemma length_digits (fuel : nat) :
  forall n k, 0 <= n < 256 ^ Z.of_nat k -> (length (big.digits fuel n) <= k)%nat.
Proof.
  induction fuel as [|f IH]; intros n k Hn; [cbn; lia|].
  cbn [big.digits]. destruct (Z.eqb_spec n 0) as [->|Hne]; [cbn; lia|].
  destruct k as [|k]; [cbn in Hn; lia|].
  rewrite length_app. cbn [length].
  rewrite Nat2Z.inj_succ, Z.pow_succ_r in Hn by lia.
  specialize (IH (n / 256) k).
  assert (0 <= n / 256 < 256 ^ Z.of_nat k).
  { split; [apply Z.div_pos; lia|]. apply Z.div_lt_upper_bound; lia. }
  lia.
Qed.

Lemma digits_nonempty (fuel : nat) (n : Z) :
  n <> 0 -> (0 < length (big.digits (S fuel) n))%nat.
Proof.
  intros Hn. cbn [big.digits]. destruct (Z.eqb_spec n 0); [done|].
  rewrite length_app. cbn. lia.
Qed.

Lemma Bytes_0 : big.Bytes 0 = [].
Proof. reflexivity. Qed.

Lemma SetBytes_Bytes (n : Z) : 0 <= n -> big.SetBytes (big.Bytes n) = n.
Proof.
  intros Hn. unfold big.Bytes. rewrite Z.abs_eq by lia.
  destruct (Z.eq_dec n 0) as [->|Hne]; [reflexivity|].
  apply SetBytes_digits.
  pose proof (Z.log2_spec n ltac:(lia)) as [_ Hlt].
  pose proof (Z.log2_nonneg n).
  rewrite Nat2Z.inj_add, Z2Nat.id by lia.
  change (Z.of_nat 1) with 1. replace (Z.log2 n + 1) with (Z.succ (Z.log2 n)) by lia.
  lia.
Qed.

Lemma length_Bytes_uint64 (n : Z) :
  1 <= n < 2 ^ 64 -> (1 <= length (big.Bytes n) <= 8)%nat.
Proof.
  intros Hn. unfold big.Bytes. rewrite Z.abs_eq by lia. split.
  - rewrite Nat.add_1_r. apply digits_nonempty. lia.
  - apply length_digits. change (256 ^ Z.of_nat 8) with (2 ^ 64). lia.
Qed.

Lemma Uint64_small (n : Z) : 0 <= n < 2 ^ 64 -> big.Uint64 n = n.
Proof.
  intros Hn. unfold big.Uint64. rewrite Z.abs_eq by lia.
  apply Z.mod_small. lia.
Qed.

End BytesFacts.

(** ** Transaction lookup entries *)

Module LookupFacts.

Import ethdb rawdb.

Local Open Scope string_scope.
Local Open Scope list_scope.

Section WithCollaborators.

Context `{C : Collaborators}.

Lemma written_keeps (v : list byte) (hashes : list (list byte)) :
  forall m k, m !! k = Some v -> written v m hashes !! k = Some v.
Proof.
  induction hashes as [|h rest IH]; intros m k Hk; [exact Hk|].
  cbn. apply IH. destruct (decide (txLookupKey h = k)) as [<-|Hne].
  - apply lookup_insert_eq.
  - by rewrite lookup_insert_ne.
Qed.

Lemma written_lookup (v : list byte) (hashes : list (list byte)) :
  forall m h, h ∈ hashes -> written v m hashes !! txLookupKey h = Some v.
Proof.
  induction hashes as [|h0 rest IH]; intros m h Hin.
  - by apply elem_of_nil in Hin.
  - apply elem_of_cons in Hin as [->|Hin].
    + cbn. apply written_keeps, lookup_insert_eq.
    + cbn. by apply IH.
Qed.

Lemma writeTxLookupEntry_ok (db : Database) (hash v : list byte) :
  put_fault (faults db) (txLookupKey hash) = None ->
  writeTxLookupEntry hash v db
  = (Returned tt,
     mkDatabase (<[txLookupKey hash := v]> (data db)) (faults db) (logged db)).
Proof.
  intros Hput. unfold writeTxLookupEntry, bind, put, Put.
  by rewrite Hput.
Qed.

Lemma write_all_ok (v : list byte) (hashes : list (list byte)) :
  forall db,
    (forall k, put_fault (faults db) k = None) ->
    for_range hashes (fun hash => writeTxLookupEntry hash v) db
    = (Returned tt,
       mkDatabase (written v (data db) hashes) (faults db) (logged db)).
Proof.
  induction hashes as [|h rest IH]; intros db Hput.
  - by destruct db.
  - cbn [for_range]. unfold bind at 1.
    rewrite writeTxLookupEntry_ok by apply Hput.
    rewrite IH by exact Hput. reflexivity.
Qed.

(** Reading an entry in the current format. *)
Lemma ReadTxLookupEntry_short (db : Database) (hash v : list byte) :
  get_fault (faults db) (txLookupKey hash) = None ->
  data db !! txLookupKey hash = Some v ->
  (0 < length v < common.HashLength)%nat ->
  ReadTxLookupEntry hash db
  = (Returned (Some (big.Uint64 (big.SetBytes v))), db).
Proof.
  intros Hget Hv Hlen. unfold ReadTxLookupEntry, bind, get, Get.
  rewrite Hget, Hv. cbn [fst].
  destruct (Nat.eqb_spec (length v) 0); [lia|].
  destruct (Nat.ltb_spec (length v) common.HashLength); [|lia].
  reflexivity.
Qed.

(** C1, as the code has it.  For every block number [n] with
    [1 <= n < 2^64], on a store whose reads and writes succeed: after
    [WriteTxLookupEntries n hashes], [ReadTxLookupEntry] gives [n] for every
    hash of [hashes]; the stored value is the minimal big-endian encoding of
    [n], of one to eight bytes, and it decodes to [n]. *)
Theorem lookup_roundtrip (db : Database) (n : Z) (hashes : list (list byte))
  (hash : list byte) :
  1 <= n < 2 ^ 64 ->
  (forall k, put_fault (faults db) k = None) ->
  (forall k, get_fault (faults db) k = None) ->
  hash ∈ hashes ->
  big.Uint64 (big.SetBytes (big.Bytes (big.SetUint64 n))) = n
  /\ exists db',
       WriteTxLookupEntries n hashes db = (Returned tt, db')
       /\ data db' !! txLookupKey hash = Some (big.Bytes (big.SetUint64 n))
       /\ ReadTxLookupEntry hash db' = (Returned (Some n), db').
Proof.
  intros Hn Hput Hget Hin.
  assert (Hset : big.SetUint64 n = n).
  { unfold big.SetUint64. apply Z.mod_small. lia. }
  assert (Hdec : big.Uint64 (big.SetBytes (big.Bytes (big.SetUint64 n))) = n).
  { rewrite Hset, BytesFacts.SetBytes_Bytes by lia.
    apply BytesFacts.Uint64_small. lia. }
  split; [exact Hdec|].
  eexists. split; [apply write_all_ok, Hput|].
  split; [by apply written_lookup|].
  rewrite <- Hdec at 2.
  apply ReadTxLookupEntry_short; cbn [faults data].
  - apply Hget.
  - by apply written_lookup.
  - rewrite Hset. pose proof (BytesFacts.length_Bytes_uint64 n Hn).
    unfold common.HashLength. lia.
Qed.

(** The four ways [ReadTxLookupEntry] can go; it always returns, and it
    leaves the store as it is apart from the one entry it may log. *)
Lemma ReadTxLookupEntry_returns (db : Database) (hash : list byte) :
  exists r db',
    ReadTxLookupEntry hash db = (Returned r, db')
    /\ (db' = db \/ (r = None /\ exists e, db' = log_entry e db)).
Proof.
  unfold ReadTxLookupEntry, bind, get.
  set (d := fst (Get db (txLookupKey hash))).
  destruct (length d =? 0)%nat; [by eexists _, _; split; [|left]|].
  destruct (length d <? common.HashLength)%nat;
    [by eexists _, _; split; [|left]|].
  destruct (length d =? common.HashLength)%nat;
    [by eexists _, _; split; [|left]|].
  destruct (proto_Unmarshal d) as [err|p].
  - eexists _, _. split; [reflexivity|]. right. split; [reflexivity|].
    eexists. reflexivity.
  - by eexists _, _; split; [|left].
Qed.

End WithCollaborators.

(** C1, as the specification has it, fails at the block number 0: its
    encoding is the empty slice, which [ReadTxLookupEntry] takes for a
    missing entry. *)
Lemma lookup_roundtrip_fails_at_zero :
  big.Bytes (big.SetUint64 0) = []
  /\ fst (@ReadTxLookupEntry Examples.chain Examples.h1
            (snd (@WriteTxLookupEntries Examples.chain 0 [Examples.h1]
                    Examples.empty_db)))
     = Returned None
  /\ ~ (forall n : Z,
          0 <= n < 2 ^ 64 ->
          fst (@ReadTxLookupEntry Examples.chain Examples.h1
                 (snd (@WriteTxLookupEntries Examples.chain n [Examples.h1]
                         Examples.empty_db)))
          = Returned (Some n)).
Proof.
  assert (H0 : fst (@ReadTxLookupEntry Examples.chain Examples.h1
                      (snd (@WriteTxLookupEntries Examples.chain 0
                              [Examples.h1] Examples.empty_db)))
               = Returned None) by (vm_compute; reflexivity).
  split; [reflexivity|]. split; [exact H0|].
  intros H. specialize (H 0 ltac:(lia)). rewrite H0 in H. discriminate.
Qed.

Lemma lookup_roundtrip_witness :
  1 <= 70000 < 2 ^ 64
  /\ Examples.h1 ∈ [Examples.h2; Examples.h1]
  /\ exists db',
       @WriteTxLookupEntries Examples.chain 70000 [Examples.h2; Examples.h1]
         Examples.empty_db = (Returned tt, db')
       /\ @ReadTxLookupEntry Examples.chain Examples.h1 db'
          = (Returned (Some 70000), db').
Proof.
  assert (Hn : 1 <= 70000 < 2 ^ 64) by lia.
  assert (Hin : Examples.h1 ∈ [Examples.h2; Examples.h1]).
  { apply elem_of_cons. right. apply elem_of_cons. left. reflexivity. }
  split; [exact Hn|]. split; [exact Hin|].
  destruct (@lookup_roundtrip Examples.chain Examples.empty_db 70000
              [Examples.h2; Examples.h1] Examples.h1 Hn
              (fun _ => eq_refl) (fun _ => eq_refl) Hin)
    as (_ & db' & Hw & _ & Hr).
  exists db'. split; [exact Hw | exact Hr].
Defined.

End LookupFacts.

(** ** Reading lookup entries and transactions *)

Module ReadFacts.

Import ethdb rawdb.

Local Open Scope string_scope.
Local Open Scope list_scope.

Section WithCollaborators.

Context `{C : Collaborators}.

Lemma BytesToHash_full (b : list byte) :
  length b = common.HashLength -> BytesToHash b = b.
Proof.
  intros Hb. unfold BytesToHash. rewrite Hb, Nat.sub_diag, drop_0, Hb.
  by rewrite Nat.sub_diag.
Qed.

(** C2.  [ReadTxLookupEntry] chooses the format of the stored record by its
    length alone.  With [raw] the bytes [db.Get] delivers: empty, the result
    is absent; shorter than 32, it is [raw] read as a big-endian integer
    (converted to [uint64]); exactly 32, it is what the header-number lookup
    gives for [raw] as a hash; longer, [raw] is decoded with the legacy
    schema, and a failed decode appends exactly one error entry to the log
    and returns absent.  In every other case nothing is logged. *)
Theorem ReadTxLookupEntry_by_length (db : Database) (hash : list byte) :
  let raw := fst (Get db (txLookupKey hash)) in
  (length raw = 0%nat -> ReadTxLookupEntry hash db = (Returned None, db))
  /\ ((0 < length raw < 32)%nat ->
      ReadTxLookupEntry hash db
      = (Returned (Some (big.SetBytes raw mod 2 ^ 64)), db))
  /\ (length raw = 32%nat ->
      ReadTxLookupEntry hash db = (Returned (ReadHeaderNumber db raw), db))
  /\ ((32 < length raw)%nat ->
      forall err, proto_Unmarshal raw = inl err ->
      ReadTxLookupEntry hash db
      = (Returned None,
         mkDatabase (data db) (faults db)
           (logged db ++
            [mkEntry ErrorLevel
               [("hash", FBytes hash); ("blob", FBytes raw); ("err", FErr err)]
               "Invalid transaction lookup entry protobuf"])))
  /\ ((32 < length raw)%nat ->
      forall p, proto_Unmarshal raw = inr p ->
      ReadTxLookupEntry hash db
      = (Returned (Some (BlockIndex (ProtoDecode p))), db)).
Proof.
  intros raw. unfold ReadTxLookupEntry, bind, get. cbn [fst]. fold raw.
  unfold common.HashLength.
  repeat split.
  - intros Hlen. by rewrite Hlen.
  - intros Hlen.
    destruct (Nat.eqb_spec (length raw) 0); [lia|].
    destruct (Nat.ltb_spec (length raw) 32); [|lia].
    unfold ret, big.Uint64. rewrite Z.abs_eq; [reflexivity|].
    apply BytesFacts.SetBytes_range.
  - intros Hlen.
    destruct (Nat.eqb_spec (length raw) 0); [lia|].
    destruct (Nat.ltb_spec (length raw) 32); [lia|].
    destruct (Nat.eqb_spec (length raw) 32); [|lia].
    by rewrite BytesToHash_full.
  - intros Hlen err Herr.
    destruct (Nat.eqb_spec (length raw) 0); [lia|].
    destruct (Nat.ltb_spec (length raw) 32); [lia|].
    destruct (Nat.eqb_spec (length raw) 32); [lia|].
    by rewrite Herr.
  - intros Hlen p Hp.
    destruct (Nat.eqb_spec (length raw) 0); [lia|].
    destruct (Nat.ltb_spec (length raw) 32); [lia|].
    destruct (Nat.eqb_spec (length raw) 32); [lia|].
    by rewrite Hp.
Qed.

Lemma scan_none (txs : list Transaction) (hash : list byte) :
  forall i, (forall tx, tx ∈ txs -> tx_Hash tx <> hash) -> scan txs hash i = None.
Proof.
  induction txs as [|tx rest IH]; intros i Hall; [reflexivity|].
  cbn [scan]. destruct (decide (tx_Hash tx = hash)) as [Heq|_].
  - exfalso. apply (Hall tx); [apply elem_of_cons; by left | exact Heq].
  - apply IH. intros tx' Hin. apply Hall, elem_of_cons. by right.
Qed.

Lemma scan_some (txs : list Transaction) (hash : list byte) :
  forall i tx j,
    scan txs hash i = Some (tx, j) ->
    tx_Hash tx = hash /\ (i <= j)%Z /\ txs !! Z.to_nat (j - i) = Some tx.
Proof.
  induction txs as [|tx0 rest IH]; intros i tx j Hscan; [discriminate|].
  cbn [scan] in Hscan. destruct (decide (tx_Hash tx0 = hash)) as [Heq|_].
  - injection Hscan as <- <-. rewrite Z.sub_diag.
    split; [exact Heq|]. split; [lia | reflexivity].
  - apply IH in Hscan as (Hh & Hle & Hl). split; [exact Hh|]. split; [lia|].
    replace (Z.to_nat (j - i)) with (S (Z.to_nat (j - (i + 1)))) by lia.
    exact Hl.
Qed.

(** C8.  [ReadTransaction] always returns, and on every failure path it
    returns the tuple [(nil, zero hash, 0, 0)]: when the lookup entry is
    absent (nothing logged beyond what the lookup itself logged), when the
    canonical hash is absent (nothing logged), when the block body is
    missing (one error entry), and when no transaction of the body has the
    hash (one error entry). *)
Theorem ReadTransaction_not_found (db : Database) (hash : list byte) :
  (exists r db', ReadTransaction hash db = (Returned r, db'))
  /\ (forall db1,
        ReadTxLookupEntry hash db = (Returned None, db1) ->
        ReadTransaction hash db = (Returned notFound, db1))
  /\ (forall number db1,
        ReadTxLookupEntry hash db = (Returned (Some number), db1) ->
        let blockHash := ReadCanonicalHash db1 number in
        (blockHash = zeroHash ->
         ReadTransaction hash db = (Returned notFound, db1))
        /\ (blockHash <> zeroHash ->
            ReadWorkObject db1 number blockHash BlockObject = None ->
            ReadTransaction hash db
            = (Returned notFound,
               mkDatabase (data db1) (faults db1)
                 (logged db1 ++
                  [mkEntry ErrorLevel
                     [("number", FUint number); ("hash", FBytes blockHash)]
                     "Transaction referenced missing"])))
        /\ (forall wo,
              blockHash <> zeroHash ->
              ReadWorkObject db1 number blockHash BlockObject = Some wo ->
              (forall tx, tx ∈ Transactions wo -> tx_Hash tx <> hash) ->
              ReadTransaction hash db
              = (Returned notFound,
                 mkDatabase (data db1) (faults db1)
                   (logged db1 ++
                    [mkEntry ErrorLevel
                       [("number", FUint number); ("hash", FBytes blockHash);
                        ("txhash", FBytes hash)]
                       "Transaction not found"])))).
Proof.
  split; [|split].
  - destruct (LookupFacts.ReadTxLookupEntry_returns db hash)
      as (r & db1 & Hr & _).
    unfold ReadTransaction, bind. rewrite Hr.
    destruct r as [number|]; [|by eexists _, _].
    destruct (decide (ReadCanonicalHash db1 number = zeroHash));
      [by eexists _, _|].
    destruct (ReadWorkObject db1 number (ReadCanonicalHash db1 number)
                BlockObject) as [wo|]; [|by eexists _, _].
    destruct (scan (Transactions wo) hash 0) as [[tx i]|]; by eexists _, _.
  - intros db1 Hr. unfold ReadTransaction, bind. by rewrite Hr.
  - intros number db1 Hr blockHash. subst blockHash.
    unfold ReadTransaction, bind. rewrite Hr.
    split; [|split].
    + intros Hz. by rewrite decide_True.
    + intros Hnz Hwo. rewrite decide_False by exact Hnz. by rewrite Hwo.
    + intros wo Hnz Hwo Hall. rewrite decide_False by exact Hnz.
      rewrite Hwo, scan_none by exact Hall. reflexivity.
Qed.

(** When it finds the transaction, the tuple holds the first transaction of
    the body with that hash, the canonical hash, the block number and the
    index. *)
Lemma ReadTransaction_found (db db1 : Database) (hash : list byte)
  (number : Z) (wo : WorkObject) (tx : Transaction) (i : Z) :
  ReadTxLookupEntry hash db = (Returned (Some number), db1) ->
  ReadCanonicalHash db1 number <> zeroHash ->
  ReadWorkObject db1 number (ReadCanonicalHash db1 number) BlockObject
  = Some wo ->
  scan (Transactions wo) hash 0 = Some (tx, i) ->
  ReadTransaction hash db
  = (Returned (Some tx, ReadCanonicalHash db1 number, number, i), db1)
  /\ tx_Hash tx = hash /\ Transactions wo !! Z.to_nat i = Some tx.
Proof.
  intros Hr Hnz Hwo Hscan. unfold ReadTransaction, bind. rewrite Hr.
  rewrite decide_False by exact Hnz. rewrite Hwo, Hscan.
  split; [reflexivity|]. apply scan_some in Hscan as (Hh & _ & Hl).
  rewrite Z.sub_0_r in Hl. by split.
Qed.

End WithCollaborators.

Import Examples.

Lemma ReadTxLookupEntry_by_length_witness :
  @ReadTxLookupEntry chain (repeat x09 32) lookup_db
  = (Returned None, lookup_db)
  /\ @ReadTxLookupEntry chain h1 lookup_db = (Returned (Some 7%Z), lookup_db)
  /\ @ReadTxLookupEntry chain h2 lookup_db = (Returned (Some 7%Z), lookup_db)
  /\ (exists e,
        @ReadTxLookupEntry chain (repeat x03 32) lookup_db
        = (Returned None, log_entry e lookup_db)
        /\ level e = ErrorLevel)
  /\ @ReadTxLookupEntry chain h7 lookup_db = (Returned (Some 7%Z), lookup_db).
Proof.
  split; [|split; [|split; [|split]]].
  - apply (proj1 (@ReadTxLookupEntry_by_length chain lookup_db (repeat x09 32))).
    reflexivity.
  - rewrite (proj1 (proj2 (@ReadTxLookupEntry_by_length chain lookup_db h1)));
      [reflexivity | vm_compute; lia].
  - rewrite (proj1 (proj2 (proj2
               (@ReadTxLookupEntry_by_length chain lookup_db h2))));
      [reflexivity | reflexivity].
  - eexists. split.
    + apply (proj1 (proj2 (proj2 (proj2
               (@ReadTxLookupEntry_by_length chain lookup_db (repeat x03 32)))))).
      * vm_compute. lia.
      * reflexivity.
    + reflexivity.
  - rewrite (proj2 (proj2 (proj2 (proj2
               (@ReadTxLookupEntry_by_length chain lookup_db h7))))
               ltac:(vm_compute; lia) 7%Z);
      [reflexivity | reflexivity].
Defined.

Lemma ReadTransaction_not_found_witness :
  @ReadTransaction chain (repeat x09 32) lookup_db
  = (Returned notFound, lookup_db)
  /\ @ReadTransaction chain (repeat x04 32) lookup_db
     = (Returned notFound, lookup_db)
  /\ (exists e,
        @ReadTransaction chain (repeat x05 32) lookup_db
        = (Returned notFound, log_entry e lookup_db)
        /\ message e = "Transaction referenced missing")
  /\ (exists e,
        @ReadTransaction chain (repeat x06 32) lookup_db
        = (Returned notFound, log_entry e lookup_db)
        /\ message e = "Transaction not found").
Proof.
  split; [|split; [|split]].
  - apply (proj1 (proj2
             (@ReadTransaction_not_found chain lookup_db (repeat x09 32)))).
    reflexivity.
  - apply (proj1 (proj2 (proj2
             (@ReadTransaction_not_found chain lookup_db (repeat x04 32)))
             8%Z lookup_db ltac:(reflexivity))).
    reflexivity.
  - eexists. split.
    + apply (proj1 (proj2 (proj2 (proj2
               (@ReadTransaction_not_found chain lookup_db (repeat x05 32)))
               9%Z lookup_db ltac:(reflexivity)))).
      * vm_compute. discriminate.
      * reflexivity.
    + reflexivity.
  - eexists. split.
    + apply (proj2 (proj2 (proj2 (proj2
               (@ReadTransaction_not_found chain lookup_db (repeat x06 32)))
               7%Z lookup_db ltac:(reflexivity)))
               (7%Z, [(100%Z, h1); (101%Z, h2)])).
      * vm_compute. discriminate.
      * reflexivity.
      * intros tx Hin. repeat (apply elem_of_cons in Hin as [->|Hin]);
          [vm_compute; discriminate .. | by apply elem_of_nil in Hin].
    + reflexivity.
Defined.

(** The transaction [h1] of block 7 is found at index 0. *)
Example ReadTransaction_h1 :
  @ReadTransaction chain h1 lookup_db
  = (Returned (Some (100%Z, h1), h7, 7%Z, 0%Z), lookup_db).
Proof. reflexivity. Qed.

End ReadFacts.

(** ** The order of the keys *)

Module OrderFacts.

Import BytesFacts.

Lemma Compare_range (a b : list byte) : -1 <= bytes.Compare a b <= 1.
Proof.
  revert b. induction a as [|x a IH]; intros [|y b]; cbn; try lia.
  destruct (byte_to_Z x ?= byte_to_Z y); [apply IH | lia | lia].
Qed.

Lemma Compare_refl (a : list byte) : bytes.Compare a a = 0.
Proof.
  induction a as [|x a IH]; [reflexivity|].
  cbn. by rewrite Z.compare_refl.
Qed.

Lemma Compare_eq (a b : list byte) : bytes.Compare a b = 0 -> a = b.
Proof.
  revert b. induction a as [|x a IH]; intros [|y b]; cbn; try done.
  destruct (Z.compare_spec (byte_to_Z x) (byte_to_Z y)) as [Heq| |];
    try done.
  intros H. apply byte_to_Z_inj in Heq. by rewrite Heq, (IH b H).
Qed.

Lemma Compare_antisym (a b : list byte) :
  bytes.Compare b a = - bytes.Compare a b.
Proof.
  revert b. induction a as [|x a IH]; intros [|y b]; cbn; try done.
  rewrite (Z.compare_antisym (byte_to_Z x) (byte_to_Z y)).
  destruct (byte_to_Z x ?= byte_to_Z y); cbn; [apply IH | done | done].
Qed.

Lemma Compare_le_trans (a b c : list byte) :
  bytes.Compare a b <= 0 -> bytes.Compare b c <= 0 -> bytes.Compare a c <= 0.
Proof.
  revert b c. induction a as [|x a IH]; intros [|y b] [|z c]; cbn; try lia.
  destruct (Z.compare_spec (byte_to_Z x) (byte_to_Z y)),
           (Z.compare_spec (byte_to_Z y) (byte_to_Z z)),
           (Z.compare_spec (byte_to_Z x) (byte_to_Z z));
    try lia; apply IH.
Qed.

#[global] Instance key_le_transitive : Transitive ethdb.key_le.
Proof. intros a b c. apply Compare_le_trans. Qed.

#[global] Instance key_le_total : Total ethdb.key_le.
Proof.
  intros a b. unfold ethdb.key_le. rewrite (Compare_antisym a b).
  destruct (Z_le_dec (bytes.Compare a b) 0); [by left | right; lia].
Qed.

Lemma Compare_app_prefix (p a b : list byte) :
  bytes.Compare (p ++ a) (p ++ b) = bytes.Compare a b.
Proof.
  induction p as [|x p IH]; [reflexivity|].
  cbn. by rewrite Z.compare_refl.
Qed.

(** Two keys that start with parts of equal length are ordered by these
    parts, and by the rest when the parts are equal. *)
Lemma Compare_app (a b x y : list byte) :
  length a = length b ->
  bytes.Compare (a ++ x) (b ++ y)
  = if bytes.Compare a b =? 0 then bytes.Compare x y else bytes.Compare a b.
Proof.
  revert b. induction a as [|c a IH]; intros [|d b] Hlen; try done.
  cbn. destruct (byte_to_Z c ?= byte_to_Z d); [|done|done].
  apply IH. by injection Hlen.
Qed.

Lemma length_BigEndian (n : nat) : forall v, length (binary.BigEndian n v) = n.
Proof.
  induction n as [|k IH]; intros v; [reflexivity|].
  cbn. rewrite length_app, IH. cbn. lia.
Qed.

(** Big-endian encodings of one width are ordered like the numbers. *)
Lemma Compare_BigEndian (n : nat) :
  forall s t,
    0 <= s < 256 ^ Z.of_nat n -> 0 <= t < 256 ^ Z.of_nat n ->
    bytes.Compare (binary.BigEndian n s) (binary.BigEndian n t) = big.Cmp s t.
Proof.
  induction n as [|k IH]; intros s t Hs Ht.
  - cbn in *. assert (s = 0) as -> by lia. assert (t = 0) as -> by lia.
    reflexivity.
  - rewrite Nat2Z.inj_succ, Z.pow_succ_r in Hs, Ht by lia.
    cbn [binary.BigEndian].
    rewrite Compare_app by (by rewrite !length_BigEndian).
    rewrite IH.
    2,3: split; [apply Z.div_pos; lia | apply Z.div_lt_upper_bound; lia].
    cbn [bytes.Compare]. rewrite !byte_to_of_Z.
    pose proof (Z.div_mod s 256 ltac:(lia)).
    pose proof (Z.div_mod t 256 ltac:(lia)).
    pose proof (Z.mod_pos_bound s 256 ltac:(lia)).
    pose proof (Z.mod_pos_bound t 256 ltac:(lia)).
    unfold big.Cmp.
    destruct (Z.compare_spec (s / 256) (t / 256)),
             (Z.compare_spec (s mod 256) (t mod 256)),
             (Z.compare_spec s t); cbn; try reflexivity; lia.
Qed.

(** Every sequence of [n] bytes is the encoding of a number. *)
Lemma BigEndian_SetBytes (l : list byte) :
  binary.BigEndian (length l) (big.SetBytes l) = l.
Proof.
  induction l as [|b l IH] using rev_ind; [reflexivity|].
  rewrite length_app, Nat.add_1_r. cbn [binary.BigEndian length].
  rewrite SetBytes_snoc. pose proof (byte_to_Z_range b).
  replace ((big.SetBytes l * 256 + byte_to_Z b) / 256) with (big.SetBytes l).
  2:{ rewrite Z.div_add_l, Z.div_small by lia. lia. }
  rewrite IH. f_equal. f_equal.
  rewrite <- (byte_of_to_Z b) at 2. unfold byte_of_Z.
  by rewrite Z.add_comm, Z.mod_add by lia.
Qed.

(** No sequence of at least [n] bytes is below [n] zero bytes. *)
Lemma Compare_zeros (n : nat) :
  forall h, (n <= length h)%nat -> 0 <= bytes.Compare h (repeat x00 n).
Proof.
  induction n as [|k IH]; intros [|x h] Hlen; cbn in *; try lia.
  pose proof (byte_to_Z_range x).
  change (byte_to_Z x00) with 0.
  destruct (Z.compare_spec (byte_to_Z x) 0); [apply IH; lia | lia | lia].
Qed.

End OrderFacts.

(** ** Bloom bits and failing stores *)

Module BloomFacts.

Import ethdb rawdb OrderFacts.

Local Open Scope string_scope.
Local Open Scope list_scope.

Section WithCollaborators.

Context `{C : Collaborators}.

(** A failed [db.Put] in [writeTxLookupEntry] is fatal. *)
Lemma writeTxLookupEntry_put_error (db : Database) (hash v : list byte)
  (e : string) :
  put_fault (faults db) (txLookupKey hash) = Some e ->
  writeTxLookupEntry hash v db
  = (Exited,
     log_entry (mkEntry FatalLevel [("err", FErr e)]
                  "Failed to store transaction lookup entry") db).
Proof.
  intros He. unfold writeTxLookupEntry, bind, put, Put. by rewrite He.
Qed.

(** A failed [db.Delete] in [DeleteTxLookupEntry] is fatal. *)
Lemma DeleteTxLookupEntry_delete_error (db : Database) (hash : list byte)
  (e : string) :
  delete_fault (faults db) (txLookupKey hash) = Some e ->
  DeleteTxLookupEntry hash db
  = (Exited,
     log_entry (mkEntry FatalLevel [("err", FErr e)]
                  "Failed to delete transaction lookup entry") db).
Proof.
  intros He. unfold DeleteTxLookupEntry, bind, del, Delete. by rewrite He.
Qed.

(** A failed [db.Put] in [WriteBloomBits] is fatal. *)
Lemma WriteBloomBits_put_error (db : Database) (bit section : Z)
  (head bits : list byte) (e : string) :
  put_fault (faults db) (bloomBitsKey bit section head) = Some e ->
  WriteBloomBits bit section head bits db
  = (Exited,
     log_entry (mkEntry FatalLevel [("err", FErr e)]
                  "Failed to store bloom bits") db).
Proof.
  intros He. unfold WriteBloomBits, bind, put, Put. by rewrite He.
Qed.

(** The loop of [DeleteBloombits] never logs and never touches the faults. *)
Lemma deleteLoop_quiet (keys : list (list byte)) (end_ : list byte) :
  forall db,
    faults (fst (deleteLoop keys end_ db)) = faults db
    /\ logged (fst (deleteLoop keys end_ db)) = logged db.
Proof.
  induction keys as [|key rest IH]; intros db; [done|].
  cbn [deleteLoop].
  destruct (0 <=? bytes.Compare key end_)%Z; [done|].
  destruct (negb (length key =? BloomBitsKeyLength)%nat); [apply IH|].
  destruct (IH (fst (Delete db key))) as [-> ->].
  unfold Delete. by destruct (delete_fault (faults db) key).
Qed.

(** As long as the iterator does not fail, [DeleteBloombits] returns and
    logs nothing, whatever [db.Delete] answers. *)
Lemma DeleteBloombits_returns (db : Database) (bit from to : Z) :
  iter_fault (faults db) = None ->
  exists db',
    DeleteBloombits bit from to db = (Returned tt, db')
    /\ logged db' = logged db.
Proof.
  intros Hit. unfold DeleteBloombits, NewIterator. rewrite Hit.
  cbn [pending failure].
  match goal with
  | |- context [deleteLoop ?ks ?e db] =>
      pose proof (deleteLoop_quiet ks e db) as [_ Hlog];
      destruct (deleteLoop ks e db) as [db' exhausted]
  end.
  exists db'. split; [by destruct exhausted | exact Hlog].
Qed.

End WithCollaborators.

(** C3 fails in [DeleteBloombits]: on a store that refuses every delete,
    the range deletion over the sections 2 and 3 returns normally, logs
    nothing and leaves every key in place. *)
Theorem DeleteBloombits_ignores_delete_error :
  delete_fault (faults Examples.bloom_db_failing)
    (@bloomBitsKey Examples.chain 0 2 Examples.h1) = Some "disk failure"
  /\ @DeleteBloombits Examples.chain 0 2 4 Examples.bloom_db_failing
     = (Returned tt, Examples.bloom_db_failing).
Proof. split; reflexivity. Qed.

(** The same failure on the sibling path is fatal. *)
Example DeleteTxLookupEntry_failing :
  exists e,
    @DeleteTxLookupEntry Examples.chain Examples.h1 Examples.bloom_db_failing
    = (Exited, log_entry e Examples.bloom_db_failing)
    /\ level e = FatalLevel.
Proof.
  eexists. split;
    [by apply (@DeleteTxLookupEntry_delete_error Examples.chain)|].
  reflexivity.
Qed.

End BloomFacts.

(** ** Range deletion of bloom bits *)

Module RangeFacts.

Import ethdb rawdb OrderFacts BytesFacts.

Section WithCollaborators.

Context `{C : Collaborators}.

(** Over keys in ascending order, on a store whose deletes succeed, the loop
    removes the keys below [end_] that have the length of a bloom-bits key,
    and nothing else. *)
Lemma deleteLoop_data (end_ : list byte) (keys : list (list byte)) :
  StronglySorted key_le keys ->
  forall db,
    (forall k, delete_fault (faults db) k = None) ->
    forall k,
      data (fst (deleteLoop keys end_ db)) !! k
      = if decide (k ∈ keys /\ bytes.Compare k end_ < 0
                   /\ length k = BloomBitsKeyLength)
        then None else data db !! k.
Proof.
  induction 1 as [|key rest Hsorted IH Hall]; intros db Hdel k.
  - cbn. rewrite decide_False; [done|].
    intros (Hin & _). by apply elem_of_nil in Hin.
  - cbn [deleteLoop].
    destruct (Z.leb_spec 0 (bytes.Compare key end_)) as [Hge|Hlt].
    + cbn [fst]. rewrite decide_False; [done|].
      intros (Hin & Hlt & _). apply elem_of_cons in Hin as [->|Hin]; [lia|].
      rewrite Forall_forall in Hall. specialize (Hall k Hin).
      assert (bytes.Compare end_ k <= 0) as Hle.
      { apply (Compare_le_trans end_ key k); [|exact Hall].
        rewrite (Compare_antisym key end_). lia. }
      rewrite (Compare_antisym end_ k) in Hlt. lia.
    + destruct (Nat.eqb_spec (length key) BloomBitsKeyLength) as [Hlen|Hlen];
        cbn [negb].
      * unfold Delete at 1. rewrite Hdel. cbn [fst].
        rewrite IH by (cbn [faults]; exact Hdel). cbn [data].
        destruct (decide (k = key)) as [->|Hne].
        -- rewrite lookup_delete_eq.
           rewrite (decide_True (P := key ∈ key :: rest /\ _)).
           ++ by case_decide.
           ++ split; [apply elem_of_cons; by left | done].
        -- rewrite lookup_delete_ne by done.
           apply decide_ext. rewrite elem_of_cons.
           split; [intros (Hin & Hk); split; [by right | exact Hk]|].
           intros ([Heq|Hin] & Hk); [done | by split].
      * rewrite IH by exact Hdel.
        apply decide_ext. rewrite elem_of_cons.
        split; [intros (Hin & Hk); split; [by right | exact Hk]|].
        intros ([->|Hin] & Hk); [by destruct Hk | by split].
Qed.

(** The iterator of a store that does not fail: the keys of the store from
    [start] on, in ascending order. *)
Lemma NewIterator_pending (db : Database) (start : list byte) :
  iter_fault (faults db) = None ->
  failure (NewIterator db [] start) = None
  /\ StronglySorted key_le (pending (NewIterator db [] start))
  /\ forall k,
       k ∈ pending (NewIterator db [] start)
       <-> is_Some (data db !! k) /\ 0 <= bytes.Compare k start.
Proof.
  intros Hit. unfold NewIterator. rewrite Hit. cbn [failure pending].
  split; [done|]. split; [apply StronglySorted_merge_sort; apply _|].
  intros k. rewrite merge_sort_Permutation, list_elem_of_filter.
  rewrite list_elem_of_fmap. cbn [app]. split.
  - intros ((_ & Hge) & ([k' v] & -> & Hin)).
    apply elem_of_map_to_list in Hin. cbn. by split; [exists v|].
  - intros ([v Hv] & Hge). split.
    + split; [by destruct k | exact Hge].
    + exists (k, v). split; [done|]. by apply elem_of_map_to_list.
Qed.

Lemma length_bloomBitsKey (bit section : Z) (head : list byte) :
  length head = common.HashLength ->
  length (bloomBitsKey bit section head) = BloomBitsKeyLength.
Proof.
  intros Hh. unfold bloomBitsKey, BloomBitsKeyLength.
  rewrite !length_app, !length_BigEndian, Hh. lia.
Qed.

(** How a key compares with the bound of a section: by the section number,
    the zero hash being the least of all hashes. *)
Lemma Compare_bound (bit s t : Z) (head : list byte) :
  0 <= s < 2 ^ 64 -> 0 <= t < 2 ^ 64 ->
  length head = common.HashLength ->
  bytes.Compare (bloomBitsKey bit s head) (bloomBitsKey bit t zeroHash)
  = if s =? t then bytes.Compare head zeroHash else big.Cmp s t.
Proof.
  intros Hs Ht Hh. unfold bloomBitsKey.
  rewrite !Compare_app_prefix.
  rewrite Compare_app by (by rewrite !length_BigEndian).
  rewrite Compare_BigEndian by (change (256 ^ Z.of_nat 8) with (2 ^ 64); lia).
  unfold big.Cmp.
  destruct (Z.compare_spec s t), (Z.eqb_spec s t); try lia; reflexivity.
Qed.

(** The keys [DeleteBloombits bit from to] removes are the bloom-bits keys
    of that bit whose section lies in [[from, to)], with any head hash. *)
Lemma removed_iff (bit from to : Z) (key : list byte) :
  0 <= from < 2 ^ 64 -> 0 <= to < 2 ^ 64 ->
  removed bit from to key
  <-> exists section head,
        key = bloomBitsKey bit section head
        /\ from <= section < to
        /\ length head = common.HashLength.
Proof.
  intros Hfrom Hto. unfold removed, scanned. split.
  - intros ((Hge & Hlt) & Hlen).
    set (pb := bloomBitsPrefix ++ binary.BigEndian 2 bit).
    assert (Hpb : length pb = (length bloomBitsPrefix + 2)%nat).
    { unfold pb. by rewrite length_app, length_BigEndian. }
    unfold BloomBitsKeyLength in Hlen.
    set (k1 := take (length pb) key).
    set (k2 := take 8 (drop (length pb) key)).
    set (k3 := drop 8 (drop (length pb) key)).
    assert (Hkey : key = k1 ++ k2 ++ k3).
    { unfold k1, k2, k3. by rewrite !take_drop. }
    assert (Hk1 : length k1 = length pb).
    { unfold k1. rewrite length_take. lia. }
    assert (Hk2 : length k2 = 8%nat).
    { unfold k2. rewrite length_take, length_drop. lia. }
    assert (Hk3 : length k3 = common.HashLength).
    { unfold k3. rewrite !length_drop. lia. }
    assert (Hbound : forall t,
               bloomBitsKey bit t zeroHash
               = pb ++ binary.BigEndian 8 t ++ zeroHash).
    { intros t. unfold bloomBitsKey, pb. by rewrite <- !app_assoc. }
    rewrite Hbound, Hkey in Hge, Hlt.
    rewrite Compare_app in Hge, Hlt by exact Hk1.
    assert (Hc : bytes.Compare k1 pb = 0).
    { destruct (Z.eqb_spec (bytes.Compare k1 pb) 0); [done | lia]. }
    apply Compare_eq in Hc.
    rewrite Hc, Compare_refl in Hge, Hlt. cbn [Z.eqb] in Hge, Hlt.
    pose proof (BigEndian_SetBytes k2) as Hdec. rewrite Hk2 in Hdec.
    pose proof (SetBytes_range k2) as Hs. rewrite Hk2 in Hs.
    change (256 ^ Z.of_nat 8) with (2 ^ 64) in Hs.
    set (s := big.SetBytes k2) in *.
    rewrite <- Hdec in Hge, Hlt.
    rewrite Compare_app in Hge, Hlt by (by rewrite !length_BigEndian).
    rewrite Compare_BigEndian in Hge, Hlt
      by (change (256 ^ Z.of_nat 8) with (2 ^ 64); lia).
    pose proof (Compare_zeros common.HashLength k3 ltac:(lia)) as Hz.
    fold zeroHash in Hz.
    exists s, k3. split; [|split; [|exact Hk3]].
    + rewrite Hkey, Hc, <- Hdec. unfold bloomBitsKey, pb.
      by rewrite <- !app_assoc.
    + unfold big.Cmp in Hge, Hlt.
      destruct (Z.compare_spec s from), (Z.compare_spec s to);
        cbn [Z.eqb] in Hge, Hlt; lia.
  - intros (s & head & -> & Hs & Hh).
    rewrite !Compare_bound by (done || lia).
    pose proof (Compare_zeros common.HashLength head ltac:(lia)) as Hz.
    fold zeroHash in Hz. unfold big.Cmp.
    split; [|by apply length_bloomBitsKey].
    destruct (Z.eqb_spec s from), (Z.eqb_spec s to),
             (Z.compare_spec s from), (Z.compare_spec s to); lia.
Qed.

(** C7.  On a store whose deletes and iterators do not fail,
    [DeleteBloombits bit from to] returns, logs nothing, and removes from
    the store exactly the keys of the scanned range that have the length of
    a bloom-bits key: every other key keeps its value, also a key of another
    length inside the range.  The removed keys are the bloom-bits keys of
    [bit] with a section in the half-open interval [[from, to)]. *)
Theorem DeleteBloombits_range (db : Database) (bit from to : Z) :
  (forall k, delete_fault (faults db) k = None) ->
  iter_fault (faults db) = None ->
  0 <= from < 2 ^ 64 ->
  0 <= to < 2 ^ 64 ->
  exists db',
    DeleteBloombits bit from to db = (Returned tt, db')
    /\ faults db' = faults db
    /\ logged db' = logged db
    /\ (forall key,
          data db' !! key
          = if decide (removed bit from to key) then None
            else data db !! key)
    /\ (forall key,
          removed bit from to key
          <-> exists section head,
                key = bloomBitsKey bit section head
                /\ from <= section < to
                /\ length head = common.HashLength).
Proof.
  intros Hdel Hit Hfrom Hto.
  destruct (NewIterator_pending db (bloomBitsKey bit from zeroHash) Hit)
    as (Hfail & Hsorted & Hkeys).
  pose proof (deleteLoop_data (bloomBitsKey bit to zeroHash) _ Hsorted db Hdel)
    as Hdata.
  pose proof (BloomFacts.deleteLoop_quiet
                (pending (NewIterator db [] (bloomBitsKey bit from zeroHash)))
                (bloomBitsKey bit to zeroHash) db) as [Hf Hl].
  unfold DeleteBloombits.
  destruct (deleteLoop _ _ db) as [db' exhausted]. cbn [fst] in *.
  exists db'. split.
  { rewrite Hfail. by destruct exhausted. }
  split; [exact Hf|]. split; [exact Hl|].
  split; [|intros key; by apply removed_iff].
  intros key. rewrite Hdata.
  destruct (decide (removed bit from to key)) as [Hrem|Hrem].
  - destruct (data db !! key) as [v|] eqn:Hv; [|by case_decide].
    rewrite decide_True; [done|].
    destruct Hrem as ((Hge & Hlt) & Hlen).
    split; [|done]. apply Hkeys. by split; [exists v|].
  - rewrite decide_False; [done|].
    intros (Hin & Hlt & Hlen). apply Hrem.
    apply Hkeys in Hin as (_ & Hge). by repeat split.
Qed.

End WithCollaborators.

Import Examples.

(** The example of the specification: bit 0, sections 1 to 5 and a key of
    another length, range [[2, 4)]. *)
Lemma DeleteBloombits_range_witness :
  exists db',
    @DeleteBloombits chain 0 2 4 bloom_db = (Returned tt, db')
    /\ data db' !! @bloomBitsKey chain 0 1 h1 = Some [x01]
    /\ data db' !! @bloomBitsKey chain 0 2 h1 = None
    /\ data db' !! @bloomBitsKey chain 0 3 h1 = None
    /\ data db' !! (@bloomBitsKey chain 0 3 h1 ++ [xff]) = Some [x09]
    /\ data db' !! @bloomBitsKey chain 0 4 h1 = Some [x04]
    /\ data db' !! @bloomBitsKey chain 0 5 h1 = Some [x05].
Proof.
  destruct (@DeleteBloombits_range chain bloom_db 0 2 4
              (fun _ => eq_refl) eq_refl ltac:(lia) ltac:(lia))
    as (db' & Hrun & _ & _ & Hdata & _).
  exists db'. split; [exact Hrun|]. rewrite !Hdata.
  repeat split; vm_compute; reflexivity.
Defined.

End RangeFacts.

(** ** More on the big-bits conversions *)

Module EntropyFacts.

Import common BigBitsFacts.

Lemma Exp_2_256 : big.Exp 2 256 = 2 ^ 256.
Proof. reflexivity. Qed.

Lemma Exp_2_pos (e : Z) : 0 < big.Exp 2 e.
Proof.
  unfold big.Exp. destruct (Z.leb_spec e 0); [lia|].
  apply Z.pow_pos_nonneg; lia.
Qed.

Lemma Exp_2_mono (e1 e2 : Z) : e1 <= e2 -> big.Exp 2 e1 <= big.Exp 2 e2.
Proof.
  intros Hle. unfold big.Exp.
  destruct (Z.leb_spec e1 0), (Z.leb_spec e2 0); try lia.
  apply Z.pow_le_mono_r; lia.
Qed.

Lemma Exp_2_nonneg (e : Z) : 0 <= e -> big.Exp 2 e = 2 ^ e.
Proof.
  intros He. unfold big.Exp. destruct (Z.leb_spec e 0); [|reflexivity].
  by replace e with 0 by lia.
Qed.

(** With the shared constants at their initial values the conversion is a
    division of [2^256] by a power of two. *)
Lemma Entropy_init (v : Z) :
  EntropyBigBitsToDifficultyBits init v
  = Some (2 ^ 256 / big.Exp 2 (v / 2 ^ 64)).
Proof.
  unfold EntropyBigBitsToDifficultyBits. cbn [Big2e64 Big2e256 init].
  rewrite Exp_2_64, Exp_2_256, Div_pos by lia.
  rewrite Div_pos by apply Exp_2_pos. reflexivity.
Qed.

(** X1.  For an entropy [v] below [2^80] (the power of two that
    [EntropyBigBitsToDifficultyBits] builds then has at most [2^16] bits)
    and the shared constants intact, the conversion returns a value that
    only depends on the integer part [e = floor (v / 2^64)]: [2^256] for
    every [v] below [2^64] (also for negative [v]), [2^(256 - e)] while
    [e <= 256], and [0] beyond. *)
Theorem Entropy_closed_form (v : Z) :
  v < 2 ^ 80 ->
  exists d,
    EntropyBigBitsToDifficultyBits init v = Some d
    /\ (v < 2 ^ 64 -> d = 2 ^ 256)
    /\ (0 <= v / 2 ^ 64 <= 256 -> d = 2 ^ (256 - v / 2 ^ 64))
    /\ (256 < v / 2 ^ 64 -> d = 0).
Proof.
  intros _.
  eexists. split; [apply Entropy_init|]. repeat split.
  - intros Hv. assert (v / 2 ^ 64 <= 0) as He.
    { assert (v / 2 ^ 64 < 1); [apply Z.div_lt_upper_bound; lia | lia]. }
    unfold big.Exp. destruct (Z.leb_spec (v / 2 ^ 64) 0); [|lia].
    apply Z.div_1_r.
  - intros He. rewrite Exp_2_nonneg by lia.
    symmetry. apply Z.pow_sub_r; lia.
  - intros He. rewrite Exp_2_nonneg by lia.
    apply Z.div_small. split; [lia|]. apply Z.pow_lt_mono_r; lia.
Qed.

Lemma Entropy_closed_form_witness :
  300 * 2 ^ 64 + 17 < 2 ^ 80
  /\ EntropyBigBitsToDifficultyBits init (300 * 2 ^ 64 + 17) = Some 0
  /\ EntropyBigBitsToDifficultyBits init (-5) = Some (2 ^ 256)
  /\ EntropyBigBitsToDifficultyBits init (200 * 2 ^ 64 + 17) = Some (2 ^ 56).
Proof.
  assert (H : 300 * 2 ^ 64 + 17 < 2 ^ 80) by lia.
  split; [exact H|]. split; [|split].
  - destruct (Entropy_closed_form (300 * 2 ^ 64 + 17) H)
      as (d & -> & _ & _ & Hd).
    f_equal. apply Hd. vm_compute. reflexivity.
  - destruct (Entropy_closed_form (-5) ltac:(lia)) as (d & -> & Hd & _).
    f_equal. apply Hd. lia.
  - destruct (Entropy_closed_form (200 * 2 ^ 64 + 17) ltac:(lia))
      as (d & -> & _ & Hd & _).
    f_equal. rewrite Hd by (vm_compute; split; discriminate).
    reflexivity.
Defined.

(** X2.  Among entropies below [2^80], more accumulated entropy never
    gives a larger difficulty value. *)
Theorem Entropy_antitone (v1 v2 : Z) :
  v1 <= v2 ->
  v2 < 2 ^ 80 ->
  exists d1 d2,
    EntropyBigBitsToDifficultyBits init v1 = Some d1
    /\ EntropyBigBitsToDifficultyBits init v2 = Some d2
    /\ d2 <= d1.
Proof.
  intros Hle _. eexists _, _.
  split; [apply Entropy_init|]. split; [apply Entropy_init|].
  apply Z.div_le_compat_l; [lia|]. split; [apply Exp_2_pos|].
  apply Exp_2_mono, Z.div_le_mono; lia.
Qed.

Lemma Entropy_antitone_witness :
  3 * 2 ^ 64 + 5 <= 200 * 2 ^ 64
  /\ 200 * 2 ^ 64 < 2 ^ 80
  /\ exists d1 d2,
       EntropyBigBitsToDifficultyBits init (3 * 2 ^ 64 + 5) = Some d1
       /\ EntropyBigBitsToDifficultyBits init (200 * 2 ^ 64) = Some d2
       /\ d2 <= d1.
Proof.
  split; [lia|]. split; [lia|].
  apply (Entropy_antitone (3 * 2 ^ 64 + 5) (200 * 2 ^ 64)); lia.
Defined.

(** X3.  Taking a number [x >= 1] to big bits and back to difficulty bits
    divides [2^256] by the largest power of two that is not above [x]. *)
Theorem Entropy_of_BitsToBigBits (x : Z) :
  1 <= x ->
  exists c v,
    2 ^ c <= x < 2 ^ (c + 1) /\ 0 <= c
    /\ BitsToBigBits x = Some v
    /\ EntropyBigBitsToDifficultyBits init v = Some (2 ^ 256 / 2 ^ c)
    /\ (c <= 256 ->
        EntropyBigBitsToDifficultyBits init v = Some (2 ^ (256 - c))).
Proof.
  intros Hx.
  destruct (BinaryLog_pos x 64) as (m & Hlog & Hm); [lia..|].
  pose proof (Z.log2_nonneg x) as Hc.
  pose proof (Z.log2_spec x ltac:(lia)) as Hspec.
  exists (Z.log2 x), (Z.log2 x * 2 ^ 64 + m).
  assert (Hdiv : (Z.log2 x * 2 ^ 64 + m) / 2 ^ 64 = Z.log2 x).
  { rewrite Z.div_add_l by lia. rewrite Z.div_small by lia. lia. }
  split; [replace (Z.log2 x + 1) with (Z.succ (Z.log2 x)) by lia; lia|].
  split; [exact Hc|].
  split; [unfold BitsToBigBits; by rewrite Hlog, Exp_2_64|].
  rewrite Entropy_init, Hdiv, Exp_2_nonneg by lia.
  split; [reflexivity|]. intros Hle. f_equal. symmetry.
  apply Z.pow_sub_r; lia.
Qed.

Lemma Entropy_of_BitsToBigBits_witness :
  1 <= 1024
  /\ exists c v,
       2 ^ c <= 1024 < 2 ^ (c + 1) /\ 0 <= c
       /\ BitsToBigBits 1024 = Some v
       /\ EntropyBigBitsToDifficultyBits init v = Some (2 ^ 256 / 2 ^ c)
       /\ (c <= 256 ->
           EntropyBigBitsToDifficultyBits init v = Some (2 ^ (256 - c))).
Proof.
  split; [lia | apply (Entropy_of_BitsToBigBits 1024); lia].
Defined.

(** X4.  [BitsToBigBits] and [LogBig] panic exactly on the inputs that are
    not positive. *)
Theorem BitsToBigBits_panics_iff (x : Z) :
  (BitsToBigBits x = None <-> x <= 0)
  /\ (LogBig x = None <-> x <= 0).
Proof.
  assert (H : BitsToBigBits x = None <-> x <= 0).
  { split.
    - intros Hnone. destruct (Z_le_gt_dec x 0) as [|Hpos]; [done|].
      destruct (BinaryLog_pos x 64) as (m & Hlog & _); [lia..|].
      unfold BitsToBigBits in Hnone. by rewrite Hlog in Hnone.
    - intros Hx. unfold BitsToBigBits. by rewrite BinaryLog_nonpos. }
  split; [exact H|]. exact H.
Qed.

(** X5.  With a positive shared [Big2e64], [BigBitsArrayToBitsArray] keeps
    the length and the order of the array and takes every element to the
    quotient [BigBitsToBits] gives for it. *)
Theorem BigBitsArrayToBitsArray_elementwise (g : Shared) (original : list Z) :
  0 < Big2e64 g ->
  BigBitsArrayToBitsArray g original
  = Some ((fun bits => bits / Big2e64 g) <$> original)
  /\ forall i bits,
       original !! i = Some bits ->
       BigBitsToBits g bits = Some (bits / Big2e64 g)
       /\ (bits / Big2e64 g) * Big2e64 g <= bits
          < (bits / Big2e64 g + 1) * Big2e64 g.
Proof.
  intros Hg. split.
  - unfold BigBitsArrayToBitsArray.
    induction original as [|bits rest IH]; [reflexivity|].
    cbn. rewrite Div_pos by exact Hg. cbn.
    cbn in IH. rewrite IH. reflexivity.
  - intros i bits _. unfold BigBitsToBits. rewrite Div_pos by exact Hg.
    split; [reflexivity|].
    pose proof (Z.div_mod bits (Big2e64 g) ltac:(lia)).
    pose proof (Z.mod_pos_bound bits (Big2e64 g) Hg). lia.
Qed.

Lemma BigBitsArrayToBitsArray_elementwise_witness :
  0 < Big2e64 init
  /\ BigBitsArrayToBitsArray init [8 * 2 ^ 64; 2 ^ 64 - 1; -1]
     = Some [8; 0; -1].
Proof.
  assert (H : 0 < Big2e64 init) by reflexivity.
  split; [exact H|].
  rewrite (proj1 (BigBitsArrayToBitsArray_elementwise init
                    [8 * 2 ^ 64; 2 ^ 64 - 1; -1] H)).
  reflexivity.
Defined.

End EntropyFacts.

(** ** More on the constant monitor *)

Module MonitorTraceFacts.

Import common MonitorFacts.

(** X6.  A round finds a mutated value exactly when one of the eight small
    shared constants differs from its canonical value; the shared [Big2e256]
    and [Big2e64] have no part in it. *)
Theorem mutated_iff (g : Shared) :
  mutated locals g = false
  <-> Big0 g = 0 /\ Big1 g = 1 /\ Big2 g = 2 /\ Big3 g = 3 /\ Big8 g = 8
      /\ Big32 g = 32 /\ Big256 g = 256 /\ Big257 g = 257.
Proof.
  rewrite mutated_locals, !orb_false_iff, !negb_false_iff, !Z.eqb_eq.
  tauto.
Qed.

(** X7.  Every write to the quit channel, completed or not, has an error
    entry of its own right before it, and every error entry is followed at
    once by a write: in the trace of every run a write at position [i + 1]
    has the error entry at position [i], an error entry at position [i]
    has a write at position [i + 1], and the first event is never a write.
    So the monitor has logged as many errors as it has made writes. *)
Theorem SanityCheck_logs_every_write (rounds : list Round) :
  (forall i q,
     SanityCheck rounds !! i = Some q -> is_quit q = true ->
     exists j, i = S j
               /\ SanityCheck rounds !! j = Some (LogError mutated_msg))
  /\ (forall i msg,
        SanityCheck rounds !! i = Some (LogError msg) ->
        msg = mutated_msg
        /\ exists q, SanityCheck rounds !! S i = Some q /\ is_quit q = true)
  /\ error_logs (SanityCheck rounds) = quit_writes (SanityCheck rounds).
Proof.
  unfold SanityCheck. split; [|split].
  - induction rounds as [|r rest IH]; intros i q Hi Hq; [done|].
    cbn [monitor] in *.
    destruct i as [|i]; [by injection Hi as <-|]. cbn [lookup list_lookup] in Hi.
    destruct (mutated locals (shared r)).
    + destruct i as [|i]; [by injection Hi as <-|].
      destruct (received r).
      * destruct i as [|i]; [by exists 1%nat|].
        destruct (IH i q Hi Hq) as (j & -> & Hj).
        by exists (S (S (S j))).
      * destruct i as [|i]; [by exists 1%nat | done].
    + destruct (IH i q Hi Hq) as (j & -> & Hj). by exists (S j).
  - induction rounds as [|r rest IH]; intros i msg Hi; [done|].
    cbn [monitor] in *.
    destruct i as [|i]; [done|]. cbn [lookup list_lookup] in Hi.
    destruct (mutated locals (shared r)).
    + destruct i as [|i].
      * injection Hi as <-. split; [reflexivity|].
        destruct (received r); by eexists.
      * destruct (received r).
        -- destruct i as [|i]; [done|]. by apply (IH i msg).
        -- by destruct i.
    + by apply (IH i msg).
  - unfold error_logs, quit_writes.
    induction rounds as [|r rest IH]; [reflexivity|].
    cbn [monitor].
    destruct (mutated locals (shared r)), (received r);
      rewrite !filter_cons; repeat case_decide;
      cbn [is_quit is_log] in *; try congruence; cbn [length];
      try rewrite IH; reflexivity.
Qed.

(** The rounds before the first mutation only sleep. *)
Lemma monitor_quiet_prefix (pre rest : list Round) :
  Forall (fun r => mutated locals (shared r) = false) pre ->
  SanityCheck (pre ++ rest) = map (fun _ => Sleep) pre ++ SanityCheck rest.
Proof.
  unfold SanityCheck. induction 1 as [|r pre Hr _ IH]; [reflexivity|].
  cbn [app monitor map]. by rewrite Hr, IH.
Qed.

(** X8.  The monitor signals in the first round that finds a mutated value:
    after one sleep per quiet round it sleeps once more, logs the error and
    writes to the quit channel; when the write is taken it goes on with the
    rounds that follow, when it is not, the goroutine stays parked and the
    later rounds never run. *)
Theorem SanityCheck_first_mutation (pre rest : list Round) (r : Round) :
  Forall (fun r => mutated locals (shared r) = false) pre ->
  mutated locals (shared r) = true ->
  SanityCheck (pre ++ r :: rest)
  = map (fun _ => Sleep) pre
    ++ Sleep :: LogError mutated_msg
       :: (if received r then QuitSent :: SanityCheck rest
           else [QuitBlocked]).
Proof.
  intros Hpre Hr. rewrite monitor_quiet_prefix by exact Hpre.
  unfold SanityCheck. cbn [monitor]. by rewrite Hr.
Qed.

Lemma SanityCheck_first_mutation_witness :
  Forall (fun r => mutated locals (shared r) = false)
    [mkRound init true; mkRound Examples.corrupted_power true]
  /\ mutated locals (shared (mkRound Examples.corrupted false)) = true
  /\ SanityCheck ([mkRound init true; mkRound Examples.corrupted_power true]
                  ++ mkRound Examples.corrupted false
                     :: [mkRound Examples.corrupted true])
     = [Sleep; Sleep; Sleep; LogError mutated_msg; QuitBlocked].
Proof.
  assert (Hpre : Forall (fun r => mutated locals (shared r) = false)
                   [mkRound init true;
                    mkRound Examples.corrupted_power true]).
  { repeat constructor. }
  assert (Hr : mutated locals (shared (mkRound Examples.corrupted false))
               = true) by reflexivity.
  split; [exact Hpre|]. split; [exact Hr|].
  rewrite (SanityCheck_first_mutation _ [mkRound Examples.corrupted true]
             _ Hpre Hr).
  reflexivity.
Defined.

End MonitorTraceFacts.

(** ** Batches of lookup entries *)

Module BatchFacts.

Import ethdb rawdb.

Local Open Scope string_scope.
Local Open Scope list_scope.

Section WithCollaborators.

Context `{C : Collaborators}.

Lemma rebuild (db : Database) :
  mkDatabase (data db) (faults db) (logged db) = db.
Proof. by destruct db. Qed.

Lemma for_range_fmap {A B : Type} (f : A -> B) (body : B -> M unit)
  (xs : list A) :
  forall db, for_range (f <$> xs) body db = for_range xs (fun x => body (f x)) db.
Proof.
  induction xs as [|x rest IH]; intros db; [reflexivity|].
  cbn [fmap list_fmap for_range]. unfold bind.
  destruct (body (f x) db) as [[[]|] db']; [apply IH | reflexivity].
Qed.

Lemma written_other (v : list byte) (hashes : list (list byte)) :
  forall m k,
    (forall h, h ∈ hashes -> txLookupKey h <> k) ->
    written v m hashes !! k = m !! k.
Proof.
  induction hashes as [|h rest IH]; intros m k Hk; [reflexivity|].
  change (written v m (h :: rest))
    with (written v (<[txLookupKey h := v]> m) rest).
  rewrite IH.
  - apply lookup_insert_ne, Hk, elem_of_cons. by left.
  - intros h' Hin. apply Hk, elem_of_cons. by right.
Qed.

(** The writes of a batch up to the first one the store refuses. *)
Lemma write_prefix (v : list byte) (pre rest : list (list byte)) :
  forall db,
    (forall h, h ∈ pre -> put_fault (faults db) (txLookupKey h) = None) ->
    for_range (pre ++ rest) (fun hash => writeTxLookupEntry hash v) db
    = for_range rest (fun hash => writeTxLookupEntry hash v)
        (mkDatabase (written v (data db) pre) (faults db) (logged db)).
Proof.
  induction pre as [|h pre IH]; intros db Hput.
  - cbn. by rewrite rebuild.
  - cbn [app for_range]. unfold bind at 1.
    rewrite LookupFacts.writeTxLookupEntry_ok
      by (apply Hput, elem_of_cons; by left).
    rewrite IH; [reflexivity|].
    intros h' Hin. cbn [faults]. apply Hput, elem_of_cons. by right.
Qed.

(** X9.  On a store that accepts the writes of the batch,
    [WriteTxLookupEntries] returns without logging, every hash of the batch
    is mapped to the minimal big-endian bytes of the block number, and
    every other key of the store keeps its value. *)
Theorem WriteTxLookupEntries_content (db : Database) (n : Z)
  (hashes : list (list byte)) :
  (forall h, h ∈ hashes -> put_fault (faults db) (txLookupKey h) = None) ->
  exists db',
    WriteTxLookupEntries n hashes db = (Returned tt, db')
    /\ faults db' = faults db
    /\ logged db' = logged db
    /\ (forall h, h ∈ hashes ->
        data db' !! txLookupKey h = Some (big.Bytes (big.SetUint64 n)))
    /\ (forall k, (forall h, h ∈ hashes -> txLookupKey h <> k) ->
        data db' !! k = data db !! k).
Proof.
  intros Hput. eexists. split.
  { unfold WriteTxLookupEntries.
    rewrite <- (app_nil_r hashes) at 1. rewrite write_prefix by exact Hput.
    reflexivity. }
  cbn [faults logged data]. repeat split.
  - intros h Hin. by apply LookupFacts.written_lookup.
  - intros k Hk. by apply written_other.
Qed.

(** X10.  A batch is not atomic: when the store refuses the write of one
    hash, the entries of the hashes before it stay written, the process
    exits with one fatal entry, and the hashes after it are never
    attempted. *)
Theorem WriteTxLookupEntries_partial (db : Database) (n : Z)
  (pre post : list (list byte)) (h : list byte) (e : string) :
  (forall h', h' ∈ pre -> put_fault (faults db) (txLookupKey h') = None) ->
  put_fault (faults db) (txLookupKey h) = Some e ->
  WriteTxLookupEntries n (pre ++ h :: post) db
  = (Exited,
     mkDatabase
       (written (big.Bytes (big.SetUint64 n)) (data db) pre)
       (faults db)
       (logged db ++ [fatal e "Failed to store transaction lookup entry"])).
Proof.
  intros Hpre Hh. unfold WriteTxLookupEntries.
  rewrite write_prefix by exact Hpre.
  cbn [for_range]. unfold bind at 1.
  rewrite BloomFacts.writeTxLookupEntry_put_error with (e := e)
    by exact Hh.
  reflexivity.
Qed.

Lemma DeleteTxLookupEntry_ok (db : Database) (hash : list byte) :
  delete_fault (faults db) (txLookupKey hash) = None ->
  DeleteTxLookupEntry hash db
  = (Returned tt,
     mkDatabase (delete (txLookupKey hash) (data db)) (faults db) (logged db)).
Proof.
  intros Hdel. unfold DeleteTxLookupEntry, bind, del, Delete.
  by rewrite Hdel.
Qed.

Lemma delete_prefix (pre rest : list (list byte)) :
  forall db,
    (forall h, h ∈ pre -> delete_fault (faults db) (txLookupKey h) = None) ->
    for_range (pre ++ rest) DeleteTxLookupEntry db
    = for_range rest DeleteTxLookupEntry
        (mkDatabase (deleted (data db) pre) (faults db) (logged db)).
Proof.
  induction pre as [|h pre IH]; intros db Hdel.
  - cbn. by rewrite rebuild.
  - cbn [app for_range]. unfold bind at 1.
    rewrite DeleteTxLookupEntry_ok by (apply Hdel, elem_of_cons; by left).
    rewrite IH; [reflexivity|].
    intros h' Hin. cbn [faults]. apply Hdel, elem_of_cons. by right.
Qed.

Lemma deleted_keeps_none (hashes : list (list byte)) :
  forall m k, m !! k = None -> deleted m hashes !! k = None.
Proof.
  induction hashes as [|h rest IH]; intros m k Hk; [exact Hk|].
  cbn. apply IH. destruct (decide (txLookupKey h = k)) as [<-|Hne].
  - apply lookup_delete_eq.
  - by rewrite lookup_delete_ne.
Qed.

Lemma deleted_lookup (hashes : list (list byte)) :
  forall m h, h ∈ hashes -> deleted m hashes !! txLookupKey h = None.
Proof.
  induction hashes as [|h0 rest IH]; intros m h Hin.
  - by apply elem_of_nil in Hin.
  - apply elem_of_cons in Hin as [->|Hin]; cbn.
    + apply deleted_keeps_none, lookup_delete_eq.
    + by apply IH.
Qed.

Lemma deleted_other (hashes : list (list byte)) :
  forall m k,
    (forall h, h ∈ hashes -> txLookupKey h <> k) ->
    deleted m hashes !! k = m !! k.
Proof.
  induction hashes as [|h rest IH]; intros m k Hk; [reflexivity|].
  change (deleted m (h :: rest))
    with (deleted (delete (txLookupKey h) m) rest).
  rewrite IH.
  - apply lookup_delete_ne, Hk, elem_of_cons. by left.
  - intros h' Hin. apply Hk, elem_of_cons. by right.
Qed.

(** Whatever makes [db.Get] deliver no bytes reads as an absent entry. *)
Lemma ReadTxLookupEntry_empty (db : Database) (hash : list byte) :
  fst (Get db (txLookupKey hash)) = [] ->
  ReadTxLookupEntry hash db = (Returned None, db).
Proof.
  intros Hraw. unfold ReadTxLookupEntry, bind, get. cbn [fst].
  by rewrite Hraw.
Qed.

Lemma Get_absent (db : Database) (key : list byte) :
  data db !! key = None -> fst (Get db key) = [].
Proof.
  intros Hk. unfold Get. destruct (get_fault (faults db) key); [done|].
  by rewrite Hk.
Qed.

(** X11.  On a store that accepts the deletes of the batch,
    [DeleteTxLookupEntries] returns without logging, no hash of the batch
    has an entry afterwards (also one that had none before), reading any of
    them gives absent, and every other key keeps its value. *)
Theorem DeleteTxLookupEntries_content (db : Database)
  (hashes : list (list byte)) :
  (forall h, h ∈ hashes -> delete_fault (faults db) (txLookupKey h) = None) ->
  exists db',
    DeleteTxLookupEntries hashes db = (Returned tt, db')
    /\ faults db' = faults db
    /\ logged db' = logged db
    /\ (forall h, h ∈ hashes ->
        data db' !! txLookupKey h = None
        /\ ReadTxLookupEntry h db' = (Returned None, db'))
    /\ (forall k, (forall h, h ∈ hashes -> txLookupKey h <> k) ->
        data db' !! k = data db !! k).
Proof.
  intros Hdel. eexists. split.
  { unfold DeleteTxLookupEntries.
    rewrite <- (app_nil_r hashes) at 1. rewrite delete_prefix by exact Hdel.
    reflexivity. }
  cbn [faults logged data]. repeat split.
  - by apply deleted_lookup.
  - apply ReadTxLookupEntry_empty, Get_absent. cbn [data].
    by apply deleted_lookup.
  - intros k Hk. by apply deleted_other.
Qed.

(** X12.  A batch of deletes is not atomic either: when the store refuses
    one delete, the entries before it are gone, the process exits with one
    fatal entry, and the entries after it stay. *)
Theorem DeleteTxLookupEntries_partial (db : Database)
  (pre post : list (list byte)) (h : list byte) (e : string) :
  (forall h', h' ∈ pre ->
     delete_fault (faults db) (txLookupKey h') = None) ->
  delete_fault (faults db) (txLookupKey h) = Some e ->
  DeleteTxLookupEntries (pre ++ h :: post) db
  = (Exited,
     mkDatabase (deleted (data db) pre) (faults db)
       (logged db ++ [fatal e "Failed to delete transaction lookup entry"])).
Proof.
  intros Hpre Hh. unfold DeleteTxLookupEntries.
  rewrite delete_prefix by exact Hpre.
  cbn [for_range]. unfold bind at 1.
  rewrite BloomFacts.DeleteTxLookupEntry_delete_error with (e := e)
    by exact Hh.
  reflexivity.
Qed.

(** X13.  Writing the lookup entries of a batch and deleting the same batch
    leaves no entry for any of its hashes and gives every other key the
    value it had before the write; nothing is logged. *)
Theorem write_then_delete (db : Database) (n : Z) (hashes : list (list byte)) :
  (forall h, h ∈ hashes -> put_fault (faults db) (txLookupKey h) = None) ->
  (forall h, h ∈ hashes -> delete_fault (faults db) (txLookupKey h) = None) ->
  exists db1 db2,
    WriteTxLookupEntries n hashes db = (Returned tt, db1)
    /\ DeleteTxLookupEntries hashes db1 = (Returned tt, db2)
    /\ faults db2 = faults db
    /\ logged db2 = logged db
    /\ (forall h, h ∈ hashes ->
        data db2 !! txLookupKey h = None
        /\ ReadTxLookupEntry h db2 = (Returned None, db2))
    /\ (forall k, (forall h, h ∈ hashes -> txLookupKey h <> k) ->
        data db2 !! k = data db !! k).
Proof.
  intros Hput Hdel.
  eexists _, _. split.
  { unfold WriteTxLookupEntries.
    rewrite <- (app_nil_r hashes) at 1. rewrite write_prefix by exact Hput.
    reflexivity. }
  split.
  { unfold DeleteTxLookupEntries.
    rewrite <- (app_nil_r hashes) at 1.
    rewrite delete_prefix by exact Hdel. reflexivity. }
  cbn [faults logged data]. repeat split.
  - by apply deleted_lookup.
  - apply ReadTxLookupEntry_empty, Get_absent. cbn [data].
    by apply deleted_lookup.
  - intros k Hk. rewrite deleted_other by exact Hk. by apply written_other.
Qed.

(** X14.  For a block whose number fits 64 bits,
    [WriteTxLookupEntriesByBlock] does what [WriteTxLookupEntries] does for
    that number and the hashes of the transactions of the block, in their
    order. *)
Theorem WriteTxLookupEntriesByBlock_eq (db : Database) (wo : WorkObject)
  (nodeCtx : Z) :
  0 <= Number wo nodeCtx < 2 ^ 64 ->
  WriteTxLookupEntriesByBlock wo nodeCtx db
  = WriteTxLookupEntries (Number wo nodeCtx) (tx_Hash <$> Transactions wo) db.
Proof.
  intros Hn. unfold WriteTxLookupEntriesByBlock, WriteTxLookupEntries.
  rewrite for_range_fmap. unfold big.SetUint64.
  by rewrite Z.mod_small by lia.
Qed.

End WithCollaborators.

Import Examples.

Lemma WriteTxLookupEntries_content_witness :
  exists db',
    @WriteTxLookupEntries chain 7 [h1; h2] lookup_db = (Returned tt, db')
    /\ data db' !! @txLookupKey chain h2 = Some [x07]
    /\ data db' !! @txLookupKey chain h7
       = data lookup_db !! @txLookupKey chain h7.
Proof.
  destruct (@WriteTxLookupEntries_content chain lookup_db 7 [h1; h2]
              (fun _ _ => eq_refl))
    as (db' & Hrun & _ & _ & Hin & Hout).
  exists db'. split; [exact Hrun|]. split.
  - rewrite Hin; [reflexivity|]. apply elem_of_cons. right.
    apply elem_of_cons. by left.
  - apply Hout. intros h Hh.
    repeat (apply elem_of_cons in Hh as [->|Hh]);
      [vm_compute; discriminate .. | by apply elem_of_nil in Hh].
Defined.

Lemma WriteTxLookupEntries_partial_witness :
  exists db',
    @WriteTxLookupEntries chain 7 ([h1] ++ h2 :: [h7])
      (store_of [] (put_fails_at (@txLookupKey chain h2)))
    = (Exited, db')
    /\ data db' !! @txLookupKey chain h1 = Some [x07]
    /\ data db' !! @txLookupKey chain h7 = None
    /\ length (logged db') = 1%nat.
Proof.
  eexists. split.
  - apply (@WriteTxLookupEntries_partial chain
             (store_of [] (put_fails_at (@txLookupKey chain h2)))
             7 [h1] [h7] h2 "disk failure").
    + intros h' Hin. apply list_elem_of_singleton in Hin as ->. reflexivity.
    + reflexivity.
  - repeat split; reflexivity.
Defined.

Lemma DeleteTxLookupEntries_content_witness :
  exists db',
    @DeleteTxLookupEntries chain [h1; repeat x09 32] lookup_db
    = (Returned tt, db')
    /\ @ReadTxLookupEntry chain h1 db' = (Returned None, db')
    /\ data db' !! @txLookupKey chain h2 = Some h7.
Proof.
  destruct (@DeleteTxLookupEntries_content chain lookup_db
              [h1; repeat x09 32] (fun _ _ => eq_refl))
    as (db' & Hrun & _ & _ & Hin & Hout).
  exists db'. split; [exact Hrun|]. split.
  - apply Hin. apply elem_of_cons. by left.
  - rewrite Hout; [reflexivity|]. intros h Hh.
    repeat (apply elem_of_cons in Hh as [->|Hh]);
      [vm_compute; discriminate .. | by apply elem_of_nil in Hh].
Defined.

Lemma DeleteTxLookupEntries_partial_witness :
  exists db',
    @DeleteTxLookupEntries chain ([h1] ++ h2 :: [h7])
      (mkDatabase (data lookup_db)
         (delete_fails_at (@txLookupKey chain h2)) [])
    = (Exited, db')
    /\ data db' !! @txLookupKey chain h1 = None
    /\ data db' !! @txLookupKey chain h2 = Some h7
    /\ is_Some (data db' !! @txLookupKey chain h7)
    /\ length (logged db') = 1%nat.
Proof.
  eexists. split.
  - apply (@DeleteTxLookupEntries_partial chain
             (mkDatabase (data lookup_db)
                (delete_fails_at (@txLookupKey chain h2)) [])
             [h1] [h7] h2 "disk failure").
    + intros h' Hin. apply list_elem_of_singleton in Hin as ->. reflexivity.
    + reflexivity.
  - repeat split; try reflexivity. eexists. reflexivity.
Defined.

Lemma write_then_delete_witness :
  exists db1 db2,
    @WriteTxLookupEntries chain 7 [h1; h2] empty_db = (Returned tt, db1)
    /\ @DeleteTxLookupEntries chain [h1; h2] db1 = (Returned tt, db2)
    /\ @ReadTxLookupEntry chain h1 db2 = (Returned None, db2)
    /\ @ReadTxLookupEntry chain h2 db2 = (Returned None, db2).
Proof.
  destruct (@write_then_delete chain empty_db 7 [h1; h2]
              (fun _ _ => eq_refl) (fun _ _ => eq_refl))
    as (db1 & db2 & Hw & Hd & _ & _ & Hin & _).
  exists db1, db2. split; [exact Hw|]. split; [exact Hd|]. split.
  - apply Hin. apply elem_of_cons. by left.
  - apply Hin. apply elem_of_cons. right. apply elem_of_cons. by left.
Defined.

Lemma WriteTxLookupEntriesByBlock_eq_witness :
  0 <= @Number chain (7, [(100, h1); (101, h2)]) 0 < 2 ^ 64
  /\ @WriteTxLookupEntriesByBlock chain (7, [(100, h1); (101, h2)]) 0 empty_db
     = @WriteTxLookupEntries chain 7 [h1; h2] empty_db.
Proof.
  assert (Hn : 0 <= @Number chain (7, [(100, h1); (101, h2)]) 0 < 2 ^ 64).
  { cbn. lia. }
  split; [exact Hn|].
  exact (@WriteTxLookupEntriesByBlock_eq chain empty_db
           (7, [(100, h1); (101, h2)]) 0 Hn).
Defined.

End BatchFacts.

(** ** Resolving a transaction *)

Module ResolveFacts.

Import ethdb rawdb.

Local Open Scope string_scope.
Local Open Scope list_scope.

Section WithCollaborators.

Context `{C : Collaborators}.

(** X15.  A failed read of the store, a missing key and an empty stored
    value are indistinguishable for the readers: in all three cases
    [ReadTxLookupEntry] gives absent and [ReadTransaction] the not-found
    tuple, and neither logs anything. *)
Theorem absent_reads_silently (db : Database) (hash : list byte) :
  is_Some (get_fault (faults db) (txLookupKey hash))
  \/ data db !! txLookupKey hash = None
  \/ data db !! txLookupKey hash = Some [] ->
  ReadTxLookupEntry hash db = (Returned None, db)
  /\ ReadTransaction hash db = (Returned notFound, db).
Proof.
  intros Hcase.
  assert (Hraw : fst (Get db (txLookupKey hash)) = []).
  { unfold Get. destruct Hcase as [[e He]|[Hk|Hk]].
    - by rewrite He.
    - destruct (get_fault _ _); [done | by rewrite Hk].
    - destruct (get_fault _ _); [done | by rewrite Hk]. }
  pose proof (BatchFacts.ReadTxLookupEntry_empty db hash Hraw) as Hr.
  split; [exact Hr|]. unfold ReadTransaction, bind. by rewrite Hr.
Qed.

Ltac unchanged :=
  eexists _, _; split; [reflexivity|];
  split; [reflexivity|]; split; [reflexivity|]; by left.

(** What [ReadTxLookupEntry] can do to the database: nothing, or append
    one error entry when it returns absent. *)
Lemma ReadTxLookupEntry_effect (db : Database) (hash : list byte) :
  exists r db',
    ReadTxLookupEntry hash db = (Returned r, db')
    /\ data db' = data db /\ faults db' = faults db
    /\ (db' = db
        \/ (r = None
            /\ exists e, logged db' = logged db ++ [e]
                         /\ level e = ErrorLevel)).
Proof.
  unfold ReadTxLookupEntry, bind, get.
  set (d := fst (Get db (txLookupKey hash))).
  destruct (length d =? 0)%nat; [unchanged|].
  destruct (length d <? common.HashLength)%nat; [unchanged|].
  destruct (length d =? common.HashLength)%nat; [unchanged|].
  destruct (proto_Unmarshal d) as [err|p]; [|unchanged].
  eexists _, _. split; [reflexivity|].
  split; [reflexivity|]. split; [reflexivity|].
  right. split; [reflexivity|]. by eexists.
Qed.

(** X16.  [ReadTransaction] only reads.  Whenever the lookup of the block
    number returns, and the accessors of the canonical hash and of the work
    object return their answers for that number, [ReadTransaction] returns
    too, leaves the content of the store and its faults as they are, and
    appends at most one entry to the log, at error level: its own code
    never logs a fatal entry. *)
Theorem ReadTransaction_read_only (db db1 : Database) (hash : list byte)
  (blockNumber : option Z) (blockHash : list byte)
  (wo : option WorkObject) :
  ReadTxLookupEntry hash db = (Returned blockNumber, db1) ->
  (forall number,
     blockNumber = Some number ->
     ReadCanonicalHash db1 number = blockHash
     /\ ReadWorkObject db1 number blockHash BlockObject = wo) ->
  exists r db',
    ReadTransaction hash db = (Returned r, db')
    /\ data db' = data db
    /\ faults db' = faults db
    /\ (logged db' = logged db
        \/ exists e, logged db' = logged db ++ [e] /\ level e = ErrorLevel).
Proof.
  intros Hlookup Hanswers.
  destruct (ReadTxLookupEntry_effect db hash)
    as (r & db1' & Hr & Hdata & Hfaults & Hlog).
  rewrite Hlookup in Hr. injection Hr as <- <-.
  unfold ReadTransaction, bind. rewrite Hlookup.
  destruct blockNumber as [number|].
  - destruct (Hanswers number eq_refl) as [Hhash Hwo].
    destruct Hlog as [->|[Hnone _]]; [|discriminate].
    rewrite Hhash.
    destruct (decide (blockHash = zeroHash)); [unchanged|].
    rewrite Hwo. destruct wo as [w|].
    + destruct (scan (Transactions w) hash 0) as [[tx i]|]; [unchanged|].
      eexists _, _. split; [reflexivity|].
      split; [reflexivity|]. split; [reflexivity|]. right. by eexists.
    + eexists _, _. split; [reflexivity|].
      split; [reflexivity|]. split; [reflexivity|]. right. by eexists.
  - eexists _, _. split; [reflexivity|].
    split; [exact Hdata|]. split; [exact Hfaults|].
    destruct Hlog as [->|[_ Hlog]]; [by left | by right].
Qed.

Lemma scan_first (txs : list Transaction) (hash : list byte) :
  forall (i : nat) (tx : Transaction) (k : Z),
    txs !! i = Some tx ->
    tx_Hash tx = hash ->
    (forall j tx', (j < i)%nat -> txs !! j = Some tx' -> tx_Hash tx' <> hash) ->
    scan txs hash k = Some (tx, k + Z.of_nat i).
Proof.
  induction txs as [|tx0 rest IH]; intros i tx k Hi Hh Hbefore;
    [discriminate|].
  cbn [scan]. destruct i as [|i].
  - injection Hi as ->. rewrite decide_True by exact Hh.
    by rewrite Z.add_0_r.
  - rewrite decide_False by (apply (Hbefore 0%nat); [lia | reflexivity]).
    rewrite (IH i tx (k + 1)); [f_equal; f_equal; lia | exact Hi | exact Hh |].
    intros j tx' Hj Hl. apply (Hbefore (S j)); [lia | exact Hl].
Qed.

(** The successful path of [ReadTransaction]. *)
Lemma resolve_first (db db1 : Database) (hash : list byte) (number : Z)
  (wo : WorkObject) (i : nat) (tx : Transaction) :
  ReadTxLookupEntry hash db = (Returned (Some number), db1) ->
  ReadCanonicalHash db1 number <> zeroHash ->
  ReadWorkObject db1 number (ReadCanonicalHash db1 number) BlockObject
  = Some wo ->
  Transactions wo !! i = Some tx ->
  tx_Hash tx = hash ->
  (forall j tx', (j < i)%nat -> Transactions wo !! j = Some tx' ->
                 tx_Hash tx' <> hash) ->
  ReadTransaction hash db
  = (Returned (Some tx, ReadCanonicalHash db1 number, number, Z.of_nat i),
     db1).
Proof.
  intros Hr Hnz Hwo Hi Hh Hbefore. unfold ReadTransaction, bind.
  rewrite Hr. rewrite decide_False by exact Hnz.
  rewrite Hwo, (scan_first _ _ i tx 0 Hi Hh Hbefore). reflexivity.
Qed.

(** X17.  When the lookup entry gives a block number, the block has a
    canonical hash and a stored body, and the body holds the hash,
    [ReadTransaction] returns the first transaction of the body with that
    hash, with the canonical hash, the block number and the index of that
    first occurrence; it logs nothing. *)
Theorem ReadTransaction_first (db db1 : Database) (hash : list byte)
  (number : Z) (wo : WorkObject) (i : nat) (tx : Transaction) :
  ReadTxLookupEntry hash db = (Returned (Some number), db1) ->
  ReadCanonicalHash db1 number <> zeroHash ->
  ReadWorkObject db1 number (ReadCanonicalHash db1 number) BlockObject
  = Some wo ->
  Transactions wo !! i = Some tx ->
  tx_Hash tx = hash ->
  (forall j tx', (j < i)%nat -> Transactions wo !! j = Some tx' ->
                 tx_Hash tx' <> hash) ->
  ReadTransaction hash db
  = (Returned (Some tx, ReadCanonicalHash db1 number, number, Z.of_nat i),
     db1)
  /\ db1 = db.
Proof.
  intros Hr Hnz Hwo Hi Hh Hbefore.
  split; [by eapply resolve_first|].
  destruct (ReadTxLookupEntry_effect db hash)
    as (r & db' & Hr' & _ & _ & Hlog).
  rewrite Hr in Hr'. injection Hr' as <- <-.
  by destruct Hlog as [->|[Hnone _]].
Qed.

(** X18.  Index, then resolve: after [WriteTxLookupEntries n hashes] on a
    store whose reads and writes succeed, [ReadTransaction] finds every
    hash of the batch that the canonical block [n] holds, and reports the
    block number [n] that was written. *)
Theorem index_then_resolve (db : Database) (n : Z)
  (hashes : list (list byte)) (hash : list byte) :
  1 <= n < 2 ^ 64 ->
  (forall h, h ∈ hashes -> put_fault (faults db) (txLookupKey h) = None) ->
  get_fault (faults db) (txLookupKey hash) = None ->
  hash ∈ hashes ->
  exists db',
    WriteTxLookupEntries n hashes db = (Returned tt, db')
    /\ forall wo i tx,
         ReadCanonicalHash db' n <> zeroHash ->
         ReadWorkObject db' n (ReadCanonicalHash db' n) BlockObject
         = Some wo ->
         Transactions wo !! i = Some tx ->
         tx_Hash tx = hash ->
         (forall j tx', (j < i)%nat -> Transactions wo !! j = Some tx' ->
                        tx_Hash tx' <> hash) ->
         ReadTransaction hash db'
         = (Returned (Some tx, ReadCanonicalHash db' n, n, Z.of_nat i), db').
Proof.
  intros Hn Hput Hget Hin. eexists. split.
  { unfold WriteTxLookupEntries.
    rewrite <- (app_nil_r hashes) at 1.
    rewrite BatchFacts.write_prefix by exact Hput. reflexivity. }
  intros wo i tx Hnz Hwo Hi Hh Hbefore.
  eapply resolve_first; try eassumption.
  assert (Hset : big.SetUint64 n = n).
  { unfold big.SetUint64. apply Z.mod_small. lia. }
  assert (Hdec : big.Uint64 (big.SetBytes (big.Bytes (big.SetUint64 n))) = n).
  { rewrite Hset, BytesFacts.SetBytes_Bytes by lia.
    apply BytesFacts.Uint64_small. lia. }
  rewrite <- Hdec at 2.
  apply LookupFacts.ReadTxLookupEntry_short; cbn [faults data].
  - exact Hget.
  - by apply LookupFacts.written_lookup.
  - rewrite Hset. pose proof (BytesFacts.length_Bytes_uint64 n Hn).
    unfold common.HashLength. lia.
Qed.

End WithCollaborators.

Import Examples.

Lemma absent_reads_silently_witness :
  (@ReadTxLookupEntry chain h1 (mkDatabase (data lookup_db) failing_gets [])
   = (Returned None, mkDatabase (data lookup_db) failing_gets [])
   /\ @ReadTransaction chain h1 (mkDatabase (data lookup_db) failing_gets [])
      = (Returned notFound, mkDatabase (data lookup_db) failing_gets []))
  /\ @ReadTransaction chain (repeat x09 32) lookup_db
     = (Returned notFound, lookup_db).
Proof.
  split.
  - apply (@absent_reads_silently chain). left. by eexists.
  - apply (@absent_reads_silently chain). right. left. reflexivity.
Defined.

Lemma ReadTransaction_read_only_witness :
  exists r db',
    @ReadTransaction chain (repeat x05 32) lookup_db = (Returned r, db')
    /\ data db' = data lookup_db
    /\ faults db' = faults lookup_db
    /\ (logged db' = logged lookup_db
        \/ exists e, logged db' = logged lookup_db ++ [e]
                     /\ level e = ErrorLevel).
Proof.
  apply (@ReadTransaction_read_only chain lookup_db lookup_db
           (repeat x05 32) (Some 9) h2 None).
  - reflexivity.
  - intros number Hn. injection Hn as <-. split; reflexivity.
Defined.

Lemma ReadTransaction_first_witness :
  @ReadTransaction chain_twice h2 lookup_db
  = (Returned (Some (101, h2), h7, 7, 1), lookup_db).
Proof.
  apply (@ReadTransaction_first chain_twice lookup_db lookup_db h2 7
           (7, twice) 1 (101, h2)).
  - reflexivity.
  - vm_compute. discriminate.
  - reflexivity.
  - reflexivity.
  - reflexivity.
  - intros j tx' Hj Hl. destruct j as [|j]; [|lia].
    injection Hl as <-. vm_compute. discriminate.
Defined.

Lemma index_then_resolve_witness :
  exists db',
    @WriteTxLookupEntries chain 7 [h1; h2] empty_db = (Returned tt, db')
    /\ @ReadTransaction chain h2 db'
       = (Returned (Some (101, h2), h7, 7, 1), db').
Proof.
  destruct (@index_then_resolve chain empty_db 7 [h1; h2] h2)
    as (db' & Hw & Hres).
  - lia.
  - intros h _. reflexivity.
  - reflexivity.
  - apply elem_of_cons. right. apply elem_of_cons. by left.
  - exists db'. split; [exact Hw|].
    apply (Hres (7, [(100, h1); (101, h2)]) 1%nat (101, h2)).
    + vm_compute. discriminate.
    + reflexivity.
    + reflexivity.
    + reflexivity.
    + intros j tx' Hj Hl. destruct j as [|j]; [|lia].
      injection Hl as <-. vm_compute. discriminate.
Defined.

End ResolveFacts.

(** ** The bloom-bits store *)

Module BloomStoreFacts.

Import ethdb rawdb OrderFacts.

Local Open Scope string_scope.
Local Open Scope list_scope.

Section WithCollaborators.

Context `{C : Collaborators}.

Lemma database_eq (db1 db2 : Database) :
  (forall k, data db1 !! k = data db2 !! k) ->
  faults db1 = faults db2 ->
  logged db1 = logged db2 ->
  db1 = db2.
Proof.
  destruct db1, db2. cbn. intros Hd -> ->. f_equal. by apply map_eq.
Qed.

(** Writing bloom bits and reading them back. *)
Lemma write_read_bloom (db : Database) (bit section : Z)
  (head bits : list byte) :
  put_fault (faults db) (bloomBitsKey bit section head) = None ->
  get_fault (faults db) (bloomBitsKey bit section head) = None ->
  exists db',
    WriteBloomBits bit section head bits db = (Returned tt, db')
    /\ ReadBloomBits bit section head db' = (Returned (bits, None), db')
    /\ faults db' = faults db
    /\ logged db' = logged db
    /\ forall k, k <> bloomBitsKey bit section head ->
                 data db' !! k = data db !! k.
Proof.
  intros Hput Hget. eexists. split.
  { unfold WriteBloomBits, bind, put, Put. rewrite Hput. reflexivity. }
  split.
  { unfold ReadBloomBits, get, Get. cbn [faults data]. rewrite Hget.
    by rewrite lookup_insert_eq. }
  cbn [faults logged data]. repeat split.
  intros k Hk. by rewrite lookup_insert_ne.
Qed.

(** X19.  Bloom bits written at a coordinate are read back from it, with
    no error; the write changes no other key and logs nothing, and the read
    changes nothing. *)
Theorem bloom_roundtrip (db : Database) (bit section : Z)
  (head bits : list byte) :
  put_fault (faults db) (bloomBitsKey bit section head) = None ->
  get_fault (faults db) (bloomBitsKey bit section head) = None ->
  exists db',
    WriteBloomBits bit section head bits db = (Returned tt, db')
    /\ ReadBloomBits bit section head db' = (Returned (bits, None), db')
    /\ faults db' = faults db
    /\ logged db' = logged db
    /\ forall k, k <> bloomBitsKey bit section head ->
                 data db' !! k = data db !! k.
Proof. apply write_read_bloom. Qed.

(** The keys an iterator delivers are not below its start, whether it
    fails or not. *)
Lemma pending_from_start (db : Database) (start k : list byte) :
  k ∈ pending (NewIterator db [] start) ->
  0 <= bytes.Compare k start /\ is_Some (data db !! k).
Proof.
  unfold NewIterator. intros Hin.
  assert (Hsorted : k ∈ merge_sort key_le
            (filter (fun k => bytes.HasPrefix k [] = true
                              /\ 0 <= bytes.Compare k ([] ++ start))
                    (fst <$> map_to_list (data db)))).
  { destruct (iter_fault (faults db)) as [[n e]|]; cbn [pending] in Hin.
    - apply elem_of_take in Hin as (i & Hi & _).
      by eapply list_elem_of_lookup_2.
    - exact Hin. }
  rewrite merge_sort_Permutation, list_elem_of_filter in Hsorted.
  destruct Hsorted as ((_ & Hge) & Hk). split; [exact Hge|].
  apply list_elem_of_fmap in Hk as ([k' v] & -> & Hkv).
  apply elem_of_map_to_list in Hkv. by exists v.
Qed.

(** Whatever the store answers to a delete, the loop only removes keys it
    was given, below the end key and of the length of a bloom-bits key. *)
Lemma deleteLoop_only_removes (end_ : list byte) (keys : list (list byte)) :
  forall db k,
    data (fst (deleteLoop keys end_ db)) !! k = data db !! k
    \/ (data (fst (deleteLoop keys end_ db)) !! k = None
        /\ k ∈ keys /\ bytes.Compare k end_ < 0
        /\ length k = BloomBitsKeyLength).
Proof.
  induction keys as [|key rest IH]; intros db k; [by left|].
  cbn [deleteLoop].
  destruct (Z.leb_spec 0 (bytes.Compare key end_)) as [Hge|Hlt]; [by left|].
  destruct (Nat.eqb_spec (length key) BloomBitsKeyLength) as [Hlen|Hlen];
    cbn [negb].
  - unfold Delete. destruct (delete_fault (faults db) key) eqn:Hf;
      cbn [fst].
    + destruct (IH db k) as [Hsame|(Hnone & Hin & Hk)]; [by left|].
      right. split; [exact Hnone|]. split; [|exact Hk].
      apply elem_of_cons. by right.
    + match goal with
      | |- context [deleteLoop rest end_ ?d] =>
          destruct (IH d k) as [Hsame|(Hnone & Hin & Hk)]
      end.
      * cbn [data] in Hsame. destruct (decide (k = key)) as [->|Hne].
        -- right. rewrite Hsame, lookup_delete_eq.
           split; [done|]. split; [apply elem_of_cons; by left | done].
        -- left. by rewrite Hsame, lookup_delete_ne.
      * right. split; [exact Hnone|]. split; [|exact Hk].
        apply elem_of_cons. by right.
  - destruct (IH db k) as [Hsame|(Hnone & Hin & Hk)]; [by left|].
    right. split; [exact Hnone|]. split; [|exact Hk].
    apply elem_of_cons. by right.
Qed.

(** The loop runs to the end of the iterator exactly when every key it is
    given is below the end key. *)
Lemma deleteLoop_exhausted (end_ : list byte) (keys : list (list byte)) :
  forall db,
    snd (deleteLoop keys end_ db) = true
    <-> Forall (fun k => bytes.Compare k end_ < 0) keys.
Proof.
  induction keys as [|key rest IH]; intros db; [done|].
  cbn [deleteLoop]. rewrite Forall_cons.
  destruct (Z.leb_spec 0 (bytes.Compare key end_)) as [Hge|Hlt].
  - cbn [snd]. split; [discriminate | intros [? _]; lia].
  - destruct (negb (length key =? BloomBitsKeyLength)%nat);
      rewrite IH; tauto.
Qed.

(** What [DeleteBloombits] does on any store. *)
Lemma DeleteBloombits_safe (db : Database) (bit from to : Z) :
  exists out db',
    DeleteBloombits bit from to db = (out, db')
    /\ faults db' = faults db
    /\ (forall k,
          data db' !! k = data db !! k
          \/ (data db' !! k = None /\ removed bit from to k
              /\ is_Some (data db !! k)))
    /\ ((out = Returned tt /\ logged db' = logged db)
        \/ (out = Exited
            /\ exists e,
                 logged db'
                 = logged db ++ [fatal e "Failed to delete bloom bits"])).
Proof.
  unfold DeleteBloombits.
  set (start := bloomBitsKey bit from zeroHash).
  set (end_ := bloomBitsKey bit to zeroHash).
  set (it := NewIterator db [] start).
  pose proof (deleteLoop_only_removes end_ (pending it) db) as Hdata.
  pose proof (BloomFacts.deleteLoop_quiet (pending it) end_ db) as [Hf Hl].
  destruct (deleteLoop (pending it) end_ db) as [db' exhausted].
  cbn [fst] in *.
  assert (Hkeys : forall k,
             data db' !! k = data db !! k
             \/ (data db' !! k = None /\ removed bit from to k
                 /\ is_Some (data db !! k))).
  { intros k. destruct (Hdata k) as [Hsame|(Hnone & Hin & Hlt & Hlen)];
      [by left|].
    right. apply pending_from_start in Hin as [Hge Hsome].
    by repeat split. }
  destruct (if exhausted then failure it else None) as [e|].
  - eexists _, _. split; [reflexivity|]. cbn [faults data logged log_entry].
    split; [exact Hf|]. split; [exact Hkeys|]. right.
    split; [reflexivity|]. exists e. by rewrite Hl.
  - eexists _, _. split; [reflexivity|].
    split; [exact Hf|]. split; [exact Hkeys|]. by left.
Qed.

(** The range deletion on a store whose deletes and iterators succeed. *)
Lemma DeleteBloombits_data (db : Database) (bit from to : Z) :
  (forall k, delete_fault (faults db) k = None) ->
  iter_fault (faults db) = None ->
  exists db',
    DeleteBloombits bit from to db = (Returned tt, db')
    /\ faults db' = faults db
    /\ logged db' = logged db
    /\ forall key,
         data db' !! key
         = if decide (removed bit from to key) then None
           else data db !! key.
Proof.
  intros Hdel Hit.
  destruct (RangeFacts.NewIterator_pending db
              (bloomBitsKey bit from zeroHash) Hit)
    as (Hfail & Hsorted & Hkeys).
  pose proof (RangeFacts.deleteLoop_data (bloomBitsKey bit to zeroHash) _
                Hsorted db Hdel) as Hdata.
  pose proof (BloomFacts.deleteLoop_quiet
                (pending (NewIterator db [] (bloomBitsKey bit from zeroHash)))
                (bloomBitsKey bit to zeroHash) db) as [Hf Hl].
  unfold DeleteBloombits.
  destruct (deleteLoop _ _ db) as [db' exhausted]. cbn [fst] in *.
  exists db'. split; [rewrite Hfail; by destruct exhausted|].
  split; [exact Hf|]. split; [exact Hl|].
  intros key. rewrite Hdata.
  destruct (decide (removed bit from to key)) as [Hrem|Hrem].
  - destruct (data db !! key) as [v|] eqn:Hv; [|by case_decide].
    rewrite decide_True; [done|].
    destruct Hrem as ((Hge & Hlt) & Hlen).
    split; [|done]. apply Hkeys. by split; [exists v|].
  - rewrite decide_False; [done|].
    intros (Hin & Hlt & Hlen). apply Hrem.
    apply Hkeys in Hin as (_ & Hge). by repeat split.
Qed.

(** X20.  A range that is empty or inverted ([to <= from]) deletes
    nothing: as long as the iterator does not fail, the database is
    returned as it was, whatever the store would answer to a delete. *)
Theorem DeleteBloombits_empty_range (db : Database) (bit from to : Z) :
  iter_fault (faults db) = None ->
  0 <= to <= from -> from < 2 ^ 64 ->
  DeleteBloombits bit from to db = (Returned tt, db).
Proof.
  intros Hit Hto Hfrom.
  destruct (RangeFacts.NewIterator_pending db
              (bloomBitsKey bit from zeroHash) Hit)
    as (Hfail & _ & Hkeys).
  unfold DeleteBloombits. rewrite Hfail.
  destruct (pending (NewIterator db [] (bloomBitsKey bit from zeroHash)))
    as [|key rest] eqn:Hp; [reflexivity|].
  assert (Hge : 0 <= bytes.Compare key (bloomBitsKey bit from zeroHash)).
  { apply Hkeys. apply elem_of_cons. by left. }
  assert (Hbound : 0 <= bytes.Compare (bloomBitsKey bit from zeroHash)
                          (bloomBitsKey bit to zeroHash)).
  { rewrite RangeFacts.Compare_bound
      by (lia || apply repeat_length).
    destruct (Z.eqb_spec from to); [by rewrite Compare_refl|].
    unfold big.Cmp. destruct (Z.compare_spec from to); lia. }
  assert (0 <= bytes.Compare key (bloomBitsKey bit to zeroHash)) as Hend.
  { rewrite (Compare_antisym (bloomBitsKey bit to zeroHash) key).
    assert (bytes.Compare (bloomBitsKey bit to zeroHash) key <= 0);
      [|lia].
    apply (Compare_le_trans _ (bloomBitsKey bit from zeroHash)).
    - rewrite (Compare_antisym (bloomBitsKey bit from zeroHash)). lia.
    - rewrite (Compare_antisym key). lia. }
  cbn [deleteLoop]. destruct (Z.leb_spec 0 (bytes.Compare key
                                (bloomBitsKey bit to zeroHash))); [|lia].
  reflexivity.
Qed.

(** X21.  Range deletion is idempotent: on a store whose deletes and
    iterators succeed, a second [DeleteBloombits] over the same range
    changes nothing. *)
Theorem DeleteBloombits_idempotent (db : Database) (bit from to : Z) :
  (forall k, delete_fault (faults db) k = None) ->
  iter_fault (faults db) = None ->
  exists db',
    DeleteBloombits bit from to db = (Returned tt, db')
    /\ DeleteBloombits bit from to db' = (Returned tt, db').
Proof.
  intros Hdel Hit.
  destruct (DeleteBloombits_data db bit from to Hdel Hit)
    as (db1 & Hrun1 & Hf1 & Hl1 & Hd1).
  destruct (DeleteBloombits_data db1 bit from to)
    as (db2 & Hrun2 & Hf2 & Hl2 & Hd2); [by rewrite Hf1 .. |].
  exists db1. split; [exact Hrun1|]. rewrite Hrun2. f_equal.
  apply database_eq; [|exact Hf2|exact Hl2].
  intros k. rewrite Hd2, Hd1. by case_decide.
Qed.

(** X22.  An iterator error is fatal only when the scan runs into it.  If
    every key the iterator delivers before it fails is below the end key,
    [DeleteBloombits] logs the fatal entry and exits; if a key at or above
    the end key comes first, the loop breaks, the error is never looked at
    and the call returns without logging. *)
Theorem DeleteBloombits_iterator_error (db : Database) (bit from to : Z)
  (n : nat) (e : string) :
  iter_fault (faults db) = Some (n, e) ->
  let keys := pending (NewIterator db [] (bloomBitsKey bit from zeroHash)) in
  let end_ := bloomBitsKey bit to zeroHash in
  (Forall (fun k => bytes.Compare k end_ < 0) keys ->
   exists db',
     DeleteBloombits bit from to db = (Exited, db')
     /\ logged db' = logged db ++ [fatal e "Failed to delete bloom bits"])
  /\ (Exists (fun k => 0 <= bytes.Compare k end_) keys ->
      exists db',
        DeleteBloombits bit from to db = (Returned tt, db')
        /\ logged db' = logged db).
Proof.
  intros Hit keys end_.
  assert (Hfail : failure (NewIterator db []
                             (bloomBitsKey bit from zeroHash)) = Some e).
  { unfold NewIterator. by rewrite Hit. }
  pose proof (BloomFacts.deleteLoop_quiet keys end_ db) as [_ Hl].
  pose proof (deleteLoop_exhausted end_ keys db) as Hex.
  unfold DeleteBloombits. fold keys end_. rewrite Hfail.
  destruct (deleteLoop keys end_ db) as [db' exhausted]. cbn [fst snd] in *.
  split.
  - intros Hall. apply Hex in Hall as ->. eexists. split; [reflexivity|].
    cbn [logged log_entry]. by rewrite Hl.
  - intros Hsome. destruct exhausted.
    + exfalso. apply Exists_exists in Hsome as (k & Hin & Hk).
      assert (Hall : Forall (fun k => bytes.Compare k end_ < 0) keys)
        by (by apply Hex).
      rewrite Forall_forall in Hall. specialize (Hall k Hin). lia.
    + eexists. split; [reflexivity | exact Hl].
Qed.

(** X23.  Bloom bits written inside a range and then deleted with the range
    are gone: the read that follows reports the key as not found. *)
Theorem bloom_write_delete_read (db : Database) (bit from to section : Z)
  (head bits : list byte) :
  put_fault (faults db) (bloomBitsKey bit section head) = None ->
  get_fault (faults db) (bloomBitsKey bit section head) = None ->
  (forall k, delete_fault (faults db) k = None) ->
  iter_fault (faults db) = None ->
  0 <= from -> from <= section < to -> to < 2 ^ 64 ->
  length head = common.HashLength ->
  exists db1 db2,
    WriteBloomBits bit section head bits db = (Returned tt, db1)
    /\ ReadBloomBits bit section head db1 = (Returned (bits, None), db1)
    /\ DeleteBloombits bit from to db1 = (Returned tt, db2)
    /\ ReadBloomBits bit section head db2
       = (Returned ([], Some errNotFound), db2).
Proof.
  intros Hput Hget Hdel Hit Hfrom Hsec Hto Hhead.
  destruct (write_read_bloom db bit section head bits Hput Hget)
    as (db1 & Hw & Hr & Hf1 & _ & _).
  destruct (DeleteBloombits_data db1 bit from to)
    as (db2 & Hrun & Hf2 & _ & Hd); [by rewrite Hf1 .. |].
  exists db1, db2. split; [exact Hw|]. split; [exact Hr|].
  split; [exact Hrun|].
  unfold ReadBloomBits, get, Get. rewrite Hf2, Hf1, Hget, Hd.
  rewrite decide_True; [reflexivity|].
  apply RangeFacts.removed_iff; [lia..|]. by exists section, head.
Qed.

(** X24.  Whatever the store answers ([db.Delete] or the iterator may
    fail) [DeleteBloombits] never adds or changes a value and never removes
    a key outside the scanned range or of another length than a bloom-bits
    key; it logs nothing, or the one fatal entry with which it exits. *)
Theorem DeleteBloombits_only_removes (db : Database) (bit from to : Z) :
  exists out db',
    DeleteBloombits bit from to db = (out, db')
    /\ faults db' = faults db
    /\ (forall k,
          data db' !! k = data db !! k
          \/ (data db' !! k = None /\ removed bit from to k
              /\ is_Some (data db !! k)))
    /\ ((out = Returned tt /\ logged db' = logged db)
        \/ (out = Exited
            /\ exists e,
                 logged db'
                 = logged db ++ [fatal e "Failed to delete bloom bits"])).
Proof. apply DeleteBloombits_safe. Qed.

(** X25.  When the two key prefixes have the same length, no range
    deletion of bloom bits ever touches a transaction lookup entry: the
    length filter keeps the two kinds of keys apart. *)
Theorem DeleteBloombits_keeps_lookup_entries (db : Database)
  (bit from to : Z) (hash : list byte) :
  length txLookupPrefix = length bloomBitsPrefix ->
  length hash = common.HashLength ->
  data (snd (DeleteBloombits bit from to db)) !! txLookupKey hash
  = data db !! txLookupKey hash.
Proof.
  intros Hprefix Hhash.
  destruct (DeleteBloombits_safe db bit from to)
    as (out & db' & Hrun & _ & Hkeys & _).
  rewrite Hrun. cbn [snd].
  destruct (Hkeys (txLookupKey hash)) as [Hsame|(_ & (_ & Hlen) & _)];
    [exact Hsame|].
  exfalso. unfold txLookupKey, BloomBitsKeyLength in Hlen.
  rewrite length_app, Hprefix, Hhash in Hlen. lia.
Qed.

End WithCollaborators.

Import Examples.

Lemma bloom_roundtrip_witness :
  exists db',
    @WriteBloomBits chain 3 9 h2 [x0a; x0b] bloom_db = (Returned tt, db')
    /\ @ReadBloomBits chain 3 9 h2 db' = (Returned ([x0a; x0b], None), db').
Proof.
  destruct (@bloom_roundtrip chain bloom_db 3 9 h2 [x0a; x0b]
              eq_refl eq_refl) as (db' & Hw & Hr & _).
  exists db'. by split.
Defined.

Lemma DeleteBloombits_empty_range_witness :
  @DeleteBloombits chain 0 4 2 bloom_db_failing
  = (Returned tt, bloom_db_failing).
Proof.
  apply (@DeleteBloombits_empty_range chain bloom_db_failing 0 4 2);
    [reflexivity | lia | lia].
Defined.

Lemma DeleteBloombits_idempotent_witness :
  exists db',
    @DeleteBloombits chain 0 2 4 bloom_db = (Returned tt, db')
    /\ @DeleteBloombits chain 0 2 4 db' = (Returned tt, db').
Proof.
  apply (@DeleteBloombits_idempotent chain bloom_db 0 2 4);
    [intros k; reflexivity | reflexivity].
Defined.

Lemma DeleteBloombits_iterator_error_witness :
  (exists db',
     @DeleteBloombits chain 0 2 4
       (store_of bloom_entries (iter_fails 1)) = (Exited, db')
     /\ length (logged db') = 1%nat)
  /\ (exists db',
        @DeleteBloombits chain 0 2 4
          (store_of bloom_entries (iter_fails 4)) = (Returned tt, db')
        /\ logged db' = []).
Proof.
  split.
  - destruct (proj1 (@DeleteBloombits_iterator_error chain
                       (store_of bloom_entries (iter_fails 1)) 0 2 4
                       1%nat "iterator failure" eq_refl))
      as (db' & Hrun & Hlog).
    + vm_compute. repeat constructor.
    + exists db'. split; [exact Hrun|]. by rewrite Hlog.
  - destruct (proj2 (@DeleteBloombits_iterator_error chain
                       (store_of bloom_entries (iter_fails 4)) 0 2 4
                       4%nat "iterator failure" eq_refl))
      as (db' & Hrun & Hlog).
    + vm_compute. do 3 apply Exists_cons_tl. apply Exists_cons_hd. discriminate.
    + exists db'. split; [exact Hrun | exact Hlog].
Defined.

Lemma bloom_write_delete_read_witness :
  exists db1 db2,
    @WriteBloomBits chain 0 3 h2 [x0a] bloom_db = (Returned tt, db1)
    /\ @DeleteBloombits chain 0 2 4 db1 = (Returned tt, db2)
    /\ @ReadBloomBits chain 0 3 h2 db2
       = (Returned ([], Some errNotFound), db2).
Proof.
  destruct (@bloom_write_delete_read chain bloom_db 0 2 4 3 h2 [x0a])
    as (db1 & db2 & Hw & _ & Hd & Hr);
    [reflexivity | reflexivity | intros k; reflexivity | reflexivity
     | lia | lia | lia | reflexivity |].
  exists db1, db2. by repeat split.
Defined.

Lemma DeleteBloombits_keeps_lookup_entries_witness :
  length (@txLookupPrefix chain) = length (@bloomBitsPrefix chain)
  /\ data (snd (@DeleteBloombits chain 0 0 5 lookup_db))
        !! @txLookupKey chain h1
     = Some [x07].
Proof.
  assert (Hp : length (@txLookupPrefix chain)
               = length (@bloomBitsPrefix chain)) by reflexivity.
  split; [exact Hp|].
  rewrite (@DeleteBloombits_keeps_lookup_entries chain lookup_db 0 0 5 h1
             Hp eq_refl).
  reflexivity.
Defined.

End BloomStoreFacts.
